(** * StarCluster PBS/Torque plugin: orchestration of controller and workers

    A shallow embedding of [starcluster/plugins/torque.py].  The plugin's
    methods are written as programs over the calls they make on their
    collaborators (the remote executor of a node, the package commands of a
    node, the log sink); the thread pool that [run] fans out over is modelled
    as a scheduler interleaving the submitted jobs. *)

From Stdlib Require Import ZArith Ascii String.
From stdpp Require Import base tactics option list strings pretty.

Local Open Scope Z_scope.

(** ** Python values and their string rendering *)

(** The values a caller can hand to the constructor: the configuration file
    delivers strings, a direct caller booleans, numbers or [None]. *)
Inductive pyvalue : Type :=
| PyNone
| PyBool (b : bool)
| PyInt (z : Z)
| PyStr (s : string).

(** Python's [str()] on these values. *)
Definition py_str (v : pyvalue) : string :=
  match v with
  | PyNone => "None"
  | PyBool true => "True"
  | PyBool false => "False"
  | PyInt z => pretty z
  | PyStr s => s
  end.

(** [str.lower()] in the C locale: only [A]..[Z] change. *)
Definition ascii_lower (c : ascii) : ascii :=
  let n := N_of_ascii c in
  if ((65 <=? n) && (n <=? 90))%N then ascii_of_N (n + 32) else c.

Fixpoint str_lower (s : string) : string :=
  match s with
  | EmptyString => EmptyString
  | String c s' => String (ascii_lower c) (str_lower s')
  end.

(** ** Data model *)

(** A cluster member.  The plugin reads its [alias] and calls its remote
    executor and package commands, which are addressed by that alias. *)
Record Node : Type := { alias : string }.

Record TorquePlugin : Type := {
  compute_on_master : bool;
  torque_admin : pyvalue
}.

(** Class attributes of [TorquePlugin]. *)
Definition torque_master_packages : list string :=
  ["torque-server"; "torque-scheduler"; "torque-client"].
Definition torque_client_packages : list string := ["torque-mom"].
Definition packages_installed_file : string := "/root/.torque-apt-log".
Definition torque_init_script : string :=
  "/usr/share/doc/torque-common/torque.setup".
Definition torque_server_file : string := "/var/spool/torque/server_name".

(** [TorquePlugin.__init__] *)
Definition __init__ (compute_on_master : pyvalue) (torque_admin : pyvalue)
  : TorquePlugin :=
  {| compute_on_master :=
       bool_decide (str_lower (py_str compute_on_master) = "true");
     torque_admin := torque_admin |}.

(** ** Calls, responses and the recorded history *)

(** What a thread asks of its collaborators.  The keyword arguments of
    [ssh.execute] are part of the call. *)
Inductive call : Type :=
| SshExecute (host cmd : string) (raise_on_failure ignore_exit_status : bool)
| SshIsdir (host path : string)
| AptCommand (host cmd : string)
| AptInstall (host package : string)
| LogInfo (msg : string).

Inductive response : Type :=
| RNone
| RStatus (status : Z)
| RBool (b : bool).

Inductive exn : Type :=
| RemoteCommandFailed (host cmd : string) (status : Z)
| PackageCommandFailed (host what : string) (status : Z)
| TypeError (msg : string).

Inductive thread : Type :=
| MainThread
| JobThread (i : nat).

Inductive pool_call : Type :=
| SimpleJob (master node : Node)
| Wait (numtasks : nat)
| Shutdown.

Inductive event : Type :=
| Called (t : thread) (c : call) (r : response)
| Pooled (op : pool_call).

Definition status_of (r : response) : Z :=
  match r with RStatus z => z | _ => 0 end.
Definition bool_of (r : response) : bool :=
  match r with RBool b => b | _ => false end.

(** The remote side: what each call answers, given everything that has
    happened so far. *)
Record Executor : Type := {
  exit_status : list event → string → string → Z;
  isdir : list event → string → string → bool;
  apt_command_status : list event → string → string → Z;
  apt_install_status : list event → string → string → Z
}.

Definition respond (ex : Executor) (tr : list event) (c : call) : response :=
  match c with
  | SshExecute host cmd _ _ => RStatus (exit_status ex tr host cmd)
  | SshIsdir host path => RBool (isdir ex tr host path)
  | AptCommand host cmd => RStatus (apt_command_status ex tr host cmd)
  | AptInstall host package => RStatus (apt_install_status ex tr host package)
  | LogInfo _ => RNone
  end.

(** Modelled from the spec: the Remote Executor contract
    ([starcluster/sshutils.py] and the package commands of
    [starcluster/node.py] are not part of the sources).  A non-zero exit of
    [execute] is a hard error when the caller asked for failure on non-zero
    and did not ask to ignore the exit status; a failing package command is
    a hard error; [isdir] and the log sink never fail. *)
Definition failure_of (c : call) (r : response) : option exn :=
  match c with
  | SshExecute host cmd raise_on_failure ignore_exit_status =>
      if negb ignore_exit_status && raise_on_failure
         && bool_decide (status_of r ≠ 0)
      then Some (RemoteCommandFailed host cmd (status_of r)) else None
  | AptCommand host cmd =>
      if bool_decide (status_of r ≠ 0)
      then Some (PackageCommandFailed host cmd (status_of r)) else None
  | AptInstall host package =>
      if bool_decide (status_of r ≠ 0)
      then Some (PackageCommandFailed host package (status_of r)) else None
  | SshIsdir _ _ | LogInfo _ => None
  end.

(** ** Programs *)

(** A method body: it returns, raises, or makes a call and continues with
    the answer. *)
Inductive prog (A : Type) : Type :=
| Ret (a : A)
| Raise (e : exn)
| Act (c : call) (k : response → prog A).
Arguments Ret {A} a.
Arguments Raise {A} e.
Arguments Act {A} c k.

Fixpoint prog_bind {A B} (f : A → prog B) (p : prog A) : prog B :=
  match p with
  | Ret a => f a
  | Raise e => Raise e
  | Act c k => Act c (λ r, prog_bind f (k r))
  end.

#[global] Instance prog_ret : MRet prog := @Ret.
#[global] Instance prog_mbind : MBind prog := @prog_bind.

(** One call; a hard failure of the call is raised to the caller. *)
Definition perform (c : call) : prog response :=
  Act c (λ r, match failure_of c r with
              | Some e => Raise e
              | None => Ret r
              end).

Definition ssh_execute (node : Node) (cmd : string)
    (raise_on_failure ignore_exit_status : bool) : prog Z :=
  r ← perform (SshExecute (alias node) cmd raise_on_failure ignore_exit_status);
  mret (status_of r).
Definition ssh_isdir (node : Node) (path : string) : prog bool :=
  r ← perform (SshIsdir (alias node) path); mret (bool_of r).
Definition apt_command (node : Node) (cmd : string) : prog unit :=
  perform (AptCommand (alias node) cmd);; mret tt.
Definition apt_install (node : Node) (package : string) : prog unit :=
  perform (AptInstall (alias node) package);; mret tt.
Definition log_info (msg : string) : prog unit :=
  perform (LogInfo msg);; mret tt.

(** [for x in l: body(x)] *)
Fixpoint for_each {A} (l : list A) (body : A → prog unit) : prog unit :=
  match l with
  | [] => mret tt
  | x :: l' => body x;; for_each l' body
  end.

(** Modelled from the spec: the default of the [raise_on_failure] keyword
    of [ssh.execute] ([starcluster/sshutils.py] is not part of the
    sources).  The calls that rely on it also ignore the exit status. *)
Definition default_raise_on_failure : bool := true.

(** ** The plugin's helper methods *)

(** [TorquePlugin._uninstall_sge_master] *)
Definition _uninstall_sge_master (self : TorquePlugin) (master : Node)
  : prog unit :=
  log_info ("Removing SGE from " +:+ alias master);;
  ssh_execute master "cd /opt/sge6/; echo y | /opt/sge6/inst_sge -ux all"
    default_raise_on_failure true;;
  mret tt.

(** [TorquePlugin._uninstall_sge_worker] *)
Definition _uninstall_sge_worker (self : TorquePlugin) (node : Node)
  : prog unit :=
  log_info ("Removing SGE from " +:+ alias node);;
  d ← ssh_isdir node "/opt/sge6";
  (if negb d
   then log_info "SGE already uninstalled."
   else ssh_execute node "/opt/sge6/inst_sge -ux"
          default_raise_on_failure true;; mret tt);;
  mret tt.

(** [TorquePlugin._configure_torque_master] *)
Definition _configure_torque_master (self : TorquePlugin) (master : Node)
    (nodes : list Node) : prog unit :=
  log_info ("Configuring PBS/Torque controller on " +:+ alias master);;
  _uninstall_sge_master self master;;
  apt_command master "update";;
  for_each torque_master_packages (λ package,
    log_info ("master: installing package " +:+ package);;
    apt_install master package);;
  let config_commands :=
    ["service torque-scheduler stop";
     "service torque-server stop";
     "echo '" +:+ alias master +:+ "' > '" +:+ torque_server_file +:+ "'";
     "echo 'y' | sh " +:+ torque_init_script +:+ " "
       +:+ py_str (torque_admin self);
     "qterm";
     "service torque-server start";
     "service torque-scheduler start"] in
  for_each config_commands (λ cmd,
    log_info ("master: executing command: " +:+ cmd);;
    ssh_execute master cmd true false;; mret tt);;
  mret tt.

(** [TorquePlugin._configure_torque_node] *)
Definition _configure_torque_node (self : TorquePlugin) (master node : Node)
  : prog unit :=
  log_info ("Configuring PBS/Torque node " +:+ alias node);;
  _uninstall_sge_worker self node;;
  apt_command node "update";;
  for_each torque_client_packages (λ package,
    log_info ("node: installing package " +:+ package);;
    apt_install node package);;
  let cmd := "qmgr -c 'create node " +:+ alias node +:+ "'" in
  log_info ("master: executing command: " +:+ cmd);;
  ssh_execute master cmd true false;;
  let config_commands :=
    ["service torque-mom stop";
     "echo '" +:+ alias master +:+ "' > '" +:+ torque_server_file +:+ "'";
     "sleep 1; service torque-mom start"] in
  for_each config_commands (λ cmd,
    log_info ("node: executing command: " +:+ cmd);;
    ssh_execute node cmd true false;; mret tt);;
  mret tt.

(** [TorquePlugin._deconfigure_torque_node] *)
Definition _deconfigure_torque_node (self : TorquePlugin) (master node : Node)
  : prog unit :=
  let cmd := "qmgr -c 'delete node " +:+ alias node +:+ "'" in
  log_info ("master: executing command: " +:+ cmd);;
  ssh_execute master cmd true false;;
  mret tt.

(** [TorquePlugin.on_add_node] *)
Definition on_add_node (self : TorquePlugin) (node : Node) (nodes : list Node)
    (master : Node) (user user_shell volumes : pyvalue) : prog unit :=
  _configure_torque_node self master node;;
  mret tt.

(** [TorquePlugin.on_remove_node] *)
Definition on_remove_node (self : TorquePlugin) (node : Node)
    (nodes : list Node) (master : Node) (user user_shell volumes : pyvalue)
  : prog unit :=
  _deconfigure_torque_node self master node;;
  mret tt.

(** ** Running a program on a thread *)

Inductive result (A : Type) : Type :=
| Returned (a : A)
| Raised (e : exn).
Arguments Returned {A} a.
Arguments Raised {A} e.

Definition settle {A} (r : result A) : prog A :=
  match r with Returned a => Ret a | Raised e => Raise e end.

(** A method called synchronously runs to its end on the calling thread;
    every call is appended to the history with its answer. *)
Fixpoint exec {A} (ex : Executor) (t : thread) (p : prog A)
    (tr : list event) : result A * list event :=
  match p with
  | Ret a => (Returned a, tr)
  | Raise e => (Raised e, tr)
  | Act c k =>
      let r := respond ex tr c in
      exec ex t (k r) (tr ++ [Called t c r])
  end.

(** ** The task pool

    The pool of the plugin's base class ([starcluster/threadpool.py]) is
    not part of the sources; it is modelled from the spec.  The pool holds
    the residual program of every submitted job, in submission order; job
    [i] runs on [JobThread i].  The worker threads advance while the
    submitting thread is inside a pool method, in the order the scheduler
    picks (the [schedule] of the world: one burst of job indices per pool
    method called), so every interleaving of the jobs' calls is the run of
    some schedule.  A job that raises is a completed job; its error stays
    with the job. *)

Definition finished {A} (p : prog A) : bool :=
  match p with Act _ _ => false | _ => true end.

Definition completed (jobs : list (prog unit)) : nat :=
  length (filter (λ p, finished p = true) jobs).

Record World : Type := {
  trace : list event;
  jobs : list (prog unit);
  schedule : list (list nat)
}.

Definition fresh (sched : list (list nat)) : World :=
  {| trace := []; jobs := []; schedule := sched |}.

(** Modelled from the spec: a worker thread of the Task Pool
    ([starcluster/threadpool.py] is not part of the sources).  Job [i]
    makes its next call, if it has one. *)
Definition step_job (ex : Executor) (i : nat)
    (s : list event * list (prog unit)) : list event * list (prog unit) :=
  match s.2 !! i with
  | Some (Act c k) =>
      let r := respond ex s.1 c in
      (s.1 ++ [Called (JobThread i) c r], <[i := k r]> s.2)
  | _ => s
  end.

Definition pool_burst (ex : Executor) (burst : list nat)
    (s : list event * list (prog unit)) : list event * list (prog unit) :=
  foldl (λ s i, step_job ex i s) s burst.

(** Modelled from the spec: a worker thread of the Task Pool running job
    [i] to its end; an error of the job stays with the job. *)
Definition finish_job (ex : Executor) (i : nat)
    (s : list event * list (prog unit)) : list event * list (prog unit) :=
  match s.2 !! i with
  | Some p =>
      let '(r, tr) := exec ex (JobThread i) p s.1 in
      (tr, <[i := settle r]> s.2)
  | None => s
  end.

(** The jobs [order] run to their end one after the other until [n] jobs
    have completed. *)
Fixpoint drain (ex : Executor) (n : nat) (order : list nat)
    (s : list event * list (prog unit)) : list event * list (prog unit) :=
  match order with
  | [] => s
  | i :: order' =>
      if decide (n ≤ completed s.2)%nat then s
      else drain ex n order' (finish_job ex i s)
  end.

(** ** The main thread *)

(** A state transformer over the world that returns, raises, or never comes
    back ([None]). *)
Definition M (A : Type) : Type := World → option (result A) * World.

#[global] Instance M_ret : MRet M := λ A a w, (Some (Returned a), w).
#[global] Instance M_bind : MBind M := λ A B f m w,
  match m w with
  | (Some (Returned a), w') => f a w'
  | (Some (Raised e), w') => (Some (Raised e), w')
  | (None, w') => (None, w')
  end.

Definition raise {A} (e : exn) : M A := λ w, (Some (Raised e), w).

(** A method of the plugin called on the main thread. *)
Definition call_here {A} (ex : Executor) (p : prog A) : M A := λ w,
  let '(r, tr) := exec ex MainThread p (trace w) in
  (Some r, {| trace := tr; jobs := jobs w; schedule := schedule w |}).

(** The worker threads advance by the next burst of the schedule. *)
Definition advance (ex : Executor) (w : World) : World :=
  let s := pool_burst ex (hd [] (schedule w)) (trace w, jobs w) in
  {| trace := s.1; jobs := s.2; schedule := tl (schedule w) |}.

Definition record (op : pool_call) (w : World) : World :=
  {| trace := trace w ++ [Pooled op]; jobs := jobs w;
     schedule := schedule w |}.

Definition enqueue (job : prog unit) (w : World) : World :=
  {| trace := trace w; jobs := jobs w ++ [job]; schedule := schedule w |}.

(** Modelled from the spec: [pool.simple_job(method, args=(master, node))]
    of the Task Pool ([starcluster/threadpool.py] is not part of the
    sources): the job is enqueued and the caller goes on. *)
Definition pool_simple_job (ex : Executor)
    (method : Node → Node → prog unit) (args : Node * Node) : M unit := λ w,
  (Some (Returned tt),
   advance ex (enqueue (method args.1 args.2)
                 (record (SimpleJob args.1 args.2) w))).

(** Modelled from the spec: [pool.wait(numtasks)] of the Task Pool
    ([starcluster/threadpool.py] is not part of the sources): it comes back
    once [numtasks] jobs have completed, with or without an error, and
    never if fewer were submitted; it raises nothing. *)
Definition pool_wait (ex : Executor) (numtasks : nat) : M unit := λ w,
  let w := advance ex (record (Wait numtasks) w) in
  let s := drain ex numtasks (seq 0 (length (jobs w))) (trace w, jobs w) in
  ((if decide (numtasks ≤ completed s.2)%nat then Some (Returned tt)
    else None),
   {| trace := s.1; jobs := s.2; schedule := schedule w |}).

(** Modelled from the spec: [pool.shutdown()] of the Task Pool
    ([starcluster/threadpool.py] is not part of the sources): the queue
    drains, then the threads are released. *)
Definition pool_shutdown (ex : Executor) : M unit := λ w,
  let w := advance ex (record Shutdown w) in
  let s := drain ex (length (jobs w)) (seq 0 (length (jobs w)))
             (trace w, jobs w) in
  (Some (Returned tt),
   {| trace := s.1; jobs := s.2; schedule := schedule w |}).

(** ** [run] *)

(** [l += o] on a list: [list.__iadd__] extends [l] with the items of the
    iterable [o] and raises [TypeError] when [o] is not iterable.  The
    declaration of the [Node] class ([starcluster/node.py]) is not part of
    the sources; [node_iter] is its iteration protocol: the items iterating
    a node yields, [None] when the class defines no iteration. *)
Definition list_iadd (node_iter : Node → option (list Node))
    (l : list Node) (o : Node) : M (list Node) :=
  match node_iter o with
  | Some items => mret (l ++ items)
  | None => raise (TypeError "'Node' object is not iterable")
  end.

(** [for x in l: s = body(x, s)] on the main thread. *)
Fixpoint for_in {A S} (l : list A) (s : S) (body : A → S → M S) : M S :=
  match l with
  | [] => mret s
  | x :: l' => s' ← body x s; for_in l' s' body
  end.

(** [TorquePlugin.run] *)
Definition run (ex : Executor) (node_iter : Node → option (list Node))
    (self : TorquePlugin) (nodes : list Node) (master : Node)
    (user user_shell volumes : pyvalue) : M unit :=
  call_here ex (_configure_torque_master self master nodes);;
  let wait_count := 0%nat in
  let compute_nodes := filter (λ n, alias n ≠ alias master) nodes in
  compute_nodes ←
    (if compute_on_master self
     then list_iadd node_iter compute_nodes master
     else mret compute_nodes);
  wait_count ← for_in compute_nodes wait_count (λ node wait_count,
    let wait_count := (wait_count + 1)%nat in
    pool_simple_job ex (_configure_torque_node self) (master, node);;
    mret wait_count);
  pool_wait ex wait_count;;
  pool_shutdown ex;;
  call_here ex (log_info "Your PBS/Torque cluster is now configured.").

(** ** Reading a recorded history *)

#[global] Instance thread_eq_dec : EqDecision thread.
Proof. solve_decision. Defined.

(** The calls thread [t] made, with their answers, in order. *)
Definition calls_of (t : thread) (tr : list event)
  : list (call * response) :=
  omap (λ e, match e with
             | Called t' c r => if decide (t' = t) then Some (c, r) else None
             | Pooled _ => None
             end) tr.

(** The pool methods the main thread called, in order. *)
Definition pool_calls (tr : list event) : list pool_call :=
  omap (λ e, match e with Pooled op => Some op | Called _ _ _ => None end) tr.

Definition called (t : thread) (cr : call * response) : event :=
  Called t cr.1 cr.2.

(** The calls [exec] adds to the history. *)
Fixpoint history {A} (ex : Executor) (t : thread) (p : prog A)
    (tr : list event) : list (call * response) :=
  match p with
  | Act c k =>
      let r := respond ex tr c in
      (c, r) :: history ex t (k r) (tr ++ [Called t c r])
  | _ => []
  end.

(** A call that went through. *)
Definition ok (cr : call * response) : Prop := failure_of cr.1 cr.2 = None.

(** A program that raises nothing of its own: after a failed call it
    raises that call's error at once, after any other it goes on. *)
Fixpoint strict {A} (p : prog A) : Prop :=
  match p with
  | Ret _ => True
  | Raise _ => False
  | Act c k =>
      ∀ r, match failure_of c r with
           | Some e => k r = Raise e
           | None => strict (k r)
           end
  end.

(** [sound h p]: a thread that made the calls [h] and is left with [p]
    either saw every call go through, or stopped at its last call, which
    failed with the error it is left raising. *)
Inductive sound {A} (h : list (call * response)) (p : prog A) : Prop :=
| sound_running : Forall ok h → strict p → sound h p
| sound_failed h' c r x :
    h = h' ++ [(c, r)] → Forall ok h' → failure_of c r = Some x →
    p = Raise x → sound h p.

(** Every job of the pool is sound for the calls its thread made. *)
Definition pool_inv (s : list event * list (prog unit)) : Prop :=
  ∀ i, match s.2 !! i with
       | Some p => sound (calls_of (JobThread i) s.1) p
       | None => calls_of (JobThread i) s.1 = []
       end.

(** [follows p cs]: as long as no call fails, [p] makes exactly the calls
    [cs] in order and returns; a failed call is raised at once. *)
Fixpoint follows {A} (p : prog A) (cs : list call) : Prop :=
  match p, cs with
  | Ret _, [] => True
  | Act c k, c' :: cs' =>
      c = c' ∧
      ∀ r, match failure_of c r with
           | Some e => k r = Raise e
           | None => follows (k r) cs'
           end
  | _, _ => False
  end.

(** A property of the pool that every step of a job preserves. *)
Definition stepwise (ex : Executor)
    (P : list event * list (prog unit) → Prop) : Prop :=
  ∀ i s, P s → P (step_job ex i s).

Definition all_finished (js : list (prog unit)) : Prop :=
  ∀ j p, js !! j = Some p → finished p = true.

(** The state of the fan-out of [run]: since the history [tr0] the main
    thread made the calls [main] and called the pool methods [ops], and the
    pool holds [n] sound jobs. *)
Definition phase (tr0 : list event) (main : list (call * response))
    (ops : list pool_call) (n : nat) (w : World) : Prop :=
  pool_inv (trace w, jobs w) ∧ length (jobs w) = n ∧
  ∃ evs, trace w = tr0 ++ evs ∧ calls_of MainThread evs = main ∧
         pool_calls evs = ops.

(** The list [run] iterates over, when its computation raises nothing. *)
Definition worker_set (node_iter : Node → option (list Node))
    (self : TorquePlugin) (nodes : list Node) (master : Node)
  : option (list Node) :=
  let others := filter (λ n, alias n ≠ alias master) nodes in
  if compute_on_master self then (others ++.) <$> node_iter master
  else Some others.

Definition done_message : string :=
  "Your PBS/Torque cluster is now configured.".

(** The calls of the controller configurator, as the spec lists them:
    removal of the prior scheduler, package index and packages, then the
    seven commands of the controller. *)
Definition controller_script (self : TorquePlugin) (master : Node)
  : list call :=
  let m := alias master in
  [LogInfo ("Configuring PBS/Torque controller on " +:+ m);
   LogInfo ("Removing SGE from " +:+ m);
   SshExecute m "cd /opt/sge6/; echo y | /opt/sge6/inst_sge -ux all" true true;
   AptCommand m "update";
   LogInfo "master: installing package torque-server";
   AptInstall m "torque-server";
   LogInfo "master: installing package torque-scheduler";
   AptInstall m "torque-scheduler";
   LogInfo "master: installing package torque-client";
   AptInstall m "torque-client"] ++
  mjoin ((λ cmd, [LogInfo ("master: executing command: " +:+ cmd);
                  SshExecute m cmd true false]) <$>
    ["service torque-scheduler stop";
     "service torque-server stop";
     "echo '" +:+ m +:+ "' > '/var/spool/torque/server_name'";
     "echo 'y' | sh /usr/share/doc/torque-common/torque.setup "
       +:+ py_str (torque_admin self);
     "qterm";
     "service torque-server start";
     "service torque-scheduler start"]).

(** The calls of the node configurator once the prior scheduler is dealt
    with: package index and package, registration on the controller, then
    the three commands on the worker. *)
Definition worker_script (master node : Node) : list call :=
  let m := alias master in
  let n := alias node in
  [AptCommand n "update";
   LogInfo "node: installing package torque-mom";
   AptInstall n "torque-mom";
   LogInfo ("master: executing command: qmgr -c 'create node " +:+ n +:+ "'");
   SshExecute m ("qmgr -c 'create node " +:+ n +:+ "'") true false;
   LogInfo "node: executing command: service torque-mom stop";
   SshExecute n "service torque-mom stop" true false;
   LogInfo ("node: executing command: echo '" +:+ m
            +:+ "' > '/var/spool/torque/server_name'");
   SshExecute n ("echo '" +:+ m +:+ "' > '/var/spool/torque/server_name'")
     true false;
   LogInfo "node: executing command: sleep 1; service torque-mom start";
   SshExecute n "sleep 1; service torque-mom start" true false].

(** The removal of the prior scheduler on a worker, by the answer [d] of
    the directory test. *)
Definition removal_script (node : Node) (d : bool) : list call :=
  let n := alias node in
  [LogInfo ("Removing SGE from " +:+ n);
   SshIsdir n "/opt/sge6";
   if d then SshExecute n "/opt/sge6/inst_sge -ux" true true
   else LogInfo "SGE already uninstalled."].

#[global] Instance call_eq_dec : EqDecision call.
Proof. solve_decision. Defined.

(** The machine a call is executed on. *)
Definition host_of (c : call) : option string :=
  match c with
  | SshExecute host _ _ _ | SshIsdir host _
  | AptCommand host _ | AptInstall host _ => Some host
  | LogInfo _ => None
  end.

(** The first character of the command of an [ssh.execute] call. *)
Definition cmd_head (c : call) : option ascii :=
  match c with
  | SshExecute _ (String a _) _ _ => Some a
  | _ => None
  end.

(** The whole script of the node configurator, by the answer [d] of the
    directory test. *)
Definition node_script (master node : Node) (d : bool) : list call :=
  LogInfo ("Configuring PBS/Torque node " +:+ alias node)
  :: removal_script node d ++ worker_script master node.

(** The registration of a worker on the controller. *)
Definition registration (master node : Node) : call :=
  SshExecute (alias master)
    ("qmgr -c 'create node " +:+ alias node +:+ "'") true false.

(** What is left of [p] once it has made the calls [h] and got their
    answers; [None] when [p] does not make these calls. *)
Fixpoint after {A} (p : prog A) (h : list (call * response)) {struct h}
  : option (prog A) :=
  match h with
  | [] => Some p
  | (c, r) :: h' =>
      match p with
      | Act c' k => if decide (c' = c) then after (k r) h' else None
      | _ => None
      end
  end.

(** Every job of the pool is what is left of the program it was submitted
    with, [inits], after the calls its thread made. *)
Definition tracks (inits : list (prog unit))
    (s : list event * list (prog unit)) : Prop :=
  length s.2 = length inits ∧
  ∀ i p0, inits !! i = Some p0 →
    ∃ q, s.2 !! i = Some q ∧ after p0 (calls_of (JobThread i) s.1) = Some q.


(** [runs cmd e]: the event [e] is the execution of the command [cmd], by
    whatever thread and on whatever machine. *)
Definition runs (cmd : string) (e : event) : bool :=
  match e with
  | Called _ (SshExecute _ c _ _) _ => String.eqb c cmd
  | _ => false
  end.

(** How often the command [cmd] is executed in a history. *)
Definition issued (cmd : string) (tr : list event) : nat :=
  length (filter (λ e, runs cmd e = true) tr).

(** ** Sample clusters

    An executor on which nothing ever fails, one on which a given command
    exits with status 1, a [Node] class without iteration, and a small
    cluster. *)
Definition quiet : Executor :=
  {| exit_status := λ _ _ _, 0; isdir := λ _ _ _, false;
     apt_command_status := λ _ _ _, 0; apt_install_status := λ _ _ _, 0 |}.

Definition failing_on (cmd : string) : Executor :=
  {| exit_status := λ _ _ c, if decide (c = cmd) then 1 else 0;
     isdir := λ _ _ _, true;
     apt_command_status := λ _ _ _, 0; apt_install_status := λ _ _ _, 0 |}.

Definition plain_object : Node → option (list Node) := λ _, None.

Definition master0 : Node := {| alias := "master" |}.
Definition node001 : Node := {| alias := "node001" |}.
Definition node002 : Node := {| alias := "node002" |}.

(** [TorquePlugin()], and [TorquePlugin(compute_on_master=False)]. *)
Definition default_plugin : TorquePlugin := __init__ (PyBool true) (PyStr "root").
Definition workers_only_plugin : TorquePlugin :=
  __init__ (PyBool false) (PyStr "root").

Local Close Scope Z_scope.

(** * Properties *)

(** ** Programs that raise nothing of their own *)

Lemma strict_bind {A B} (p : prog A) (f : A → prog B) :
  strict p → (∀ a, strict (f a)) → strict (p ≫= f).
Proof.
  intros Hp Hf. induction p as [a|e|c k IH]; simpl in *; [apply Hf | done |].
  intros r. specialize (Hp r).
  destruct (failure_of c r); [by rewrite Hp | by apply IH].
Qed.

Lemma strict_perform c : strict (perform c).
Proof. intros r. by destruct (failure_of c r). Qed.

Lemma strict_for_each {A} (l : list A) (body : A → prog unit) :
  (∀ x, strict (body x)) → strict (for_each l body).
Proof.
  intros Hb. induction l as [|x l IH]; [done |].
  apply strict_bind; [apply Hb | by intros _].
Qed.

Ltac strict_tac :=
  repeat first
    [ apply strict_perform
    | apply strict_for_each; intros
    | apply strict_bind; [| intros ?]
    | match goal with |- strict (if ?b then _ else _) => destruct b end
    | exact I ].

Lemma strict_uninstall_sge_worker self node :
  strict (_uninstall_sge_worker self node).
Proof. unfold _uninstall_sge_worker, log_info, ssh_isdir, ssh_execute. strict_tac. Qed.

Lemma strict_configure_torque_master self master nodes :
  strict (_configure_torque_master self master nodes).
Proof.
  unfold _configure_torque_master, _uninstall_sge_master, log_info,
    apt_command, apt_install, ssh_execute.
  strict_tac.
Qed.

Lemma strict_configure_torque_node self master node :
  strict (_configure_torque_node self master node).
Proof.
  unfold _configure_torque_node.
  apply strict_bind; [unfold log_info; strict_tac | intros _].
  apply strict_bind; [apply strict_uninstall_sge_worker | intros _].
  unfold log_info, apt_command, apt_install, ssh_execute. strict_tac.
Qed.

(** ** Sound histories *)

Lemma sound_cons {A} cr h (p : prog A) : ok cr → sound h p → sound (cr :: h) p.
Proof.
  intros Hcr [Hh Hp | h' c r x -> Hh' Hf ->].
  - apply sound_running; [by constructor | done].
  - eapply (sound_failed _ _ (cr :: h')); [done | by constructor | done..].
Qed.

Lemma snoc_eq_inv {X} (l pre post : list X) (y z : X) :
  l ++ [y] = pre ++ z :: post →
  (pre = l ∧ z = y ∧ post = []) ∨
  (∃ post', post = post' ++ [y] ∧ l = pre ++ z :: post').
Proof.
  destruct post as [|b post _] using rev_ind; intros Heq.
  - left. apply app_inj_tail in Heq as [-> ->]. done.
  - right. exists post.
    rewrite app_comm_cons, app_assoc in Heq.
    by apply app_inj_tail in Heq as [-> ->].
Qed.

(** A failed call is the last call of its thread, and the thread is left
    raising the error of that call. *)
Lemma sound_final {A} h (p : prog A) pre c r post x :
  sound h p → h = pre ++ (c, r) :: post → failure_of c r = Some x →
  post = [] ∧ p = Raise x.
Proof.
  intros [Hh Hp | h' c' r' x' -> Hh' Hf' ->] Heq Hf.
  - subst h. apply Forall_app in Hh as [_ Hh].
    apply Forall_cons in Hh as [Hc _]. unfold ok in Hc; simpl in Hc. congruence.
  - apply snoc_eq_inv in Heq as [(-> & [= -> ->] & ->) | (post' & -> & ->)].
    + split; [done | congruence].
    + apply Forall_app in Hh' as [_ Hh'].
      apply Forall_cons in Hh' as [Hc _]. unfold ok in Hc; simpl in Hc.
      congruence.
Qed.

(** A thread left raising stopped at a failed call of its own. *)
Lemma sound_raise {A} h (x : exn) :
  sound h (Raise x : prog A) →
  ∃ h' c r, h = h' ++ [(c, r)] ∧ Forall ok h' ∧ failure_of c r = Some x.
Proof.
  intros [_ [] | h' c r x' -> Hh' Hf [= ->]]. by exists h', c, r.
Qed.

Lemma sound_ret {A} h (a : A) : sound h (Ret a) → Forall ok h.
Proof. by intros [Hh _ | h' c r x _ _ _ ?]. Qed.

(** ** Synchronous execution *)

Section Exec.
Context (ex : Executor).

Lemma exec_trace {A} t (p : prog A) tr :
  (exec ex t p tr).2 = tr ++ (called t <$> history ex t p tr).
Proof.
  revert tr. induction p as [a|e|c k IH]; intros tr; simpl.
  - by rewrite app_nil_r.
  - by rewrite app_nil_r.
  - rewrite IH. by rewrite <- app_assoc.
Qed.

Lemma exec_sound {A} t (p : prog A) tr :
  strict p → sound (history ex t p tr) (settle (exec ex t p tr).1).
Proof.
  revert tr. induction p as [a|e|c k IH]; intros tr Hp; simpl in *.
  - by apply sound_running.
  - done.
  - specialize (Hp (respond ex tr c)).
    destruct (failure_of c (respond ex tr c)) as [x|] eqn:Hf.
    + rewrite Hp. simpl. by eapply (sound_failed _ _ []).
    + apply sound_cons; [done | by apply IH].
Qed.

Lemma exec_bind {A B} t (p : prog A) (f : A → prog B) tr :
  exec ex t (p ≫= f) tr =
  match exec ex t p tr with
  | (Returned a, tr') => exec ex t (f a) tr'
  | (Raised e, tr') => (Raised e, tr')
  end.
Proof.
  revert tr. induction p as [a|e|c k IH]; intros tr; simpl; [done..|].
  apply IH.
Qed.

Lemma history_bind {A B} t (p : prog A) (f : A → prog B) tr :
  history ex t (p ≫= f) tr =
  history ex t p tr ++
  match exec ex t p tr with
  | (Returned a, tr') => history ex t (f a) tr'
  | (Raised e, _) => []
  end.
Proof.
  revert tr. induction p as [a|e|c k IH]; intros tr; simpl; [done..|].
  f_equal. apply IH.
Qed.

End Exec.

(** ** Programs that follow a script *)

Lemma follows_bind {A B} (p : prog A) (f : A → prog B) cs1 cs2 :
  follows p cs1 → (∀ a, follows (f a) cs2) → follows (p ≫= f) (cs1 ++ cs2).
Proof.
  intros Hp Hf. revert cs1 Hp.
  induction p as [a|e|c k IH]; intros [|c' cs1] Hp; simpl in *; try done.
  destruct Hp as [-> Hp]. split; [done |]. intros r. specialize (Hp r).
  destruct (failure_of c' r); [by rewrite Hp | by apply IH].
Qed.

Lemma follows_perform c : follows (perform c) [c].
Proof. split; [done |]. intros r. by destruct (failure_of c r). Qed.

Lemma follows_for_each {A} (l : list A) (body : A → prog unit) cs :
  (∀ x, follows (body x) (cs x)) →
  follows (for_each l body) (concat (cs <$> l)).
Proof.
  intros Hb. induction l as [|x l IH]; [done |].
  simpl. apply follows_bind; [apply Hb | by intros _].
Qed.

Lemma follows_eq {A} (p : prog A) cs cs' :
  follows p cs → cs = cs' → follows p cs'.
Proof. by intros ? <-. Qed.

Lemma follows_strict {A} (p : prog A) cs : follows p cs → strict p.
Proof.
  revert cs. induction p as [a|e|c k IH]; intros [|c' cs] Hp; simpl in *;
    try done.
  destruct Hp as [_ Hp]. intros r. specialize (Hp r).
  destruct (failure_of c r); [done | by eapply IH].
Qed.

Lemma follows_ret {A} (a : A) : follows (Ret a) [].
Proof. done. Qed.

Ltac follows_tac :=
  repeat first
    [ eapply follows_perform
    | eapply follows_ret
    | eapply follows_for_each; intros
    | eapply follows_bind; [| intros ?] ].

Section Scripts.
Context (ex : Executor).

(** While no call fails, the calls made are the script; in any case they
    are the beginning of it. *)
Lemma history_follows {A} t (p : prog A) cs tr :
  follows p cs →
  (history ex t p tr).*1 `prefix_of` cs ∧
  (Forall ok (history ex t p tr) → (history ex t p tr).*1 = cs).
Proof.
  revert cs tr. induction p as [a|e|c k IH]; intros [|c' cs] tr Hp;
    simpl in *; try done.
  destruct Hp as [<- Hp]. specialize (Hp (respond ex tr c)).
  destruct (failure_of c (respond ex tr c)) as [x|] eqn:Hf.
  - rewrite Hp. simpl. split.
    + by apply prefix_cons, prefix_nil.
    + intros Hok. apply Forall_cons in Hok as [Hc _].
      unfold ok in Hc; simpl in Hc. congruence.
  - destruct (IH _ cs (tr ++ [Called t c (respond ex tr c)]) Hp) as [Hpre Hall].
    split.
    + by apply prefix_cons.
    + intros Hok. apply Forall_cons in Hok as [_ Hok]. f_equal. by apply Hall.
Qed.

Lemma exec_returned_iff {A} t (p : prog A) tr :
  strict p →
  (∃ a, (exec ex t p tr).1 = Returned a) ↔ Forall ok (history ex t p tr).
Proof.
  intros Hp. pose proof (exec_sound ex t p tr Hp) as Hs. split.
  - intros [a Ha]. rewrite Ha in Hs. by apply sound_ret in Hs.
  - intros Hok. destruct (exec ex t p tr).1 as [a|x]; [by exists a |].
    apply sound_raise in Hs as (h' & c & r & Hh & _ & Hf).
    rewrite Hh in Hok. apply Forall_app in Hok as [_ Hok].
    apply Forall_cons in Hok as [Hc _]. unfold ok in Hc; simpl in Hc.
    congruence.
Qed.

End Scripts.

(** ** Reading histories *)

Lemma calls_of_app t tr1 tr2 :
  calls_of t (tr1 ++ tr2) = calls_of t tr1 ++ calls_of t tr2.
Proof. apply omap_app. Qed.

Lemma calls_of_cons t t' c r tr :
  calls_of t (Called t' c r :: tr) =
  (if decide (t' = t) then [(c, r)] else []) ++ calls_of t tr.
Proof. unfold calls_of. simpl. by destruct (decide (t' = t)). Qed.

Lemma calls_of_called t h : calls_of t (called t <$> h) = h.
Proof.
  induction h as [|[c r] h IH]; [done |].
  change (calls_of t (Called t c r :: (called t <$> h)) = (c, r) :: h).
  rewrite calls_of_cons, decide_True by done. simpl. by rewrite IH.
Qed.

Lemma calls_of_called_ne t t' h : t' ≠ t → calls_of t (called t' <$> h) = [].
Proof.
  intros Hne. induction h as [|[c r] h IH]; [done |].
  change (calls_of t (Called t' c r :: (called t' <$> h)) = []).
  by rewrite calls_of_cons, decide_False.
Qed.

Lemma pool_calls_app tr1 tr2 :
  pool_calls (tr1 ++ tr2) = pool_calls tr1 ++ pool_calls tr2.
Proof. apply omap_app. Qed.

Lemma pool_calls_called t h : pool_calls (called t <$> h) = [].
Proof. by induction h as [|[c r] h IH]. Qed.

(** ** The task pool *)

Section Pool.
Context (ex : Executor).

Lemma pool_burst_app b1 b2 s :
  pool_burst ex (b1 ++ b2) s = pool_burst ex b2 (pool_burst ex b1 s).
Proof. apply foldl_app. Qed.

Lemma stepwise_burst P b s : stepwise ex P → P s → P (pool_burst ex b s).
Proof.
  intros HP. revert s. induction b as [|i b IH]; intros s Hs; [done |].
  simpl. apply IH, HP, Hs.
Qed.

(** Running a job to its end is a burst of that job's steps. *)
Lemma finish_job_burst i s : ∃ b, finish_job ex i s = pool_burst ex b s.
Proof.
  destruct s as [tr js]. unfold finish_job. simpl.
  destruct (js !! i) as [p|] eqn:Hi; [| by exists []].
  revert tr js Hi. induction p as [a|e|c k IH]; intros tr js Hi; simpl.
  - exists []. simpl. by rewrite list_insert_id.
  - exists []. simpl. by rewrite list_insert_id.
  - set (r := respond ex tr c).
    destruct (IH r (tr ++ [Called (JobThread i) c r]) (<[i := k r]> js))
      as [b Hb].
    { apply list_lookup_insert_eq. by eapply lookup_lt_Some. }
    exists (i :: b). simpl. unfold step_job at 1. simpl. rewrite Hi.
    fold r. rewrite <- Hb.
    destruct (exec ex (JobThread i) (k r) _) as [res tr'].
    by rewrite list_insert_insert_eq.
Qed.

Lemma drain_burst n order s : ∃ b, drain ex n order s = pool_burst ex b s.
Proof.
  revert s. induction order as [|i order IH]; intros s; simpl.
  - by exists [].
  - destruct (decide (n ≤ completed s.2)); [by exists [] |].
    destruct (finish_job_burst i s) as [b1 ->].
    destruct (IH (pool_burst ex b1 s)) as [b2 ->].
    exists (b1 ++ b2). by rewrite pool_burst_app.
Qed.

Lemma stepwise_finish P i s : stepwise ex P → P s → P (finish_job ex i s).
Proof.
  intros HP Hs. destruct (finish_job_burst i s) as [b ->].
  by apply stepwise_burst.
Qed.

Lemma stepwise_drain P n order s :
  stepwise ex P → P s → P (drain ex n order s).
Proof.
  intros HP Hs. destruct (drain_burst n order s) as [b ->].
  by apply stepwise_burst.
Qed.

(** *** What the steps preserve *)

Lemma stepwise_length n : stepwise ex (λ s, length s.2 = n).
Proof.
  intros i [tr js] Hs. unfold step_job. simpl in *.
  destruct (js !! i) as [[a|e|c k]|]; simpl; try done.
  by rewrite length_insert.
Qed.

Lemma stepwise_finished j p :
  finished p = true → stepwise ex (λ s, s.2 !! j = Some p).
Proof.
  intros Hp i [tr js] Hs. unfold step_job. simpl in *.
  destruct (js !! i) as [[a|e|c k]|] eqn:Hi; simpl; try done.
  rewrite list_lookup_insert_ne; [done |]. intros ->.
  rewrite Hs in Hi. by injection Hi as ->.
Qed.

Lemma sound_snoc {A} h c (k : response → prog A) r :
  sound h (Act c k) → sound (h ++ [(c, r)]) (k r).
Proof.
  intros [Hh Hp | h' c' r' x _ _ _ ?]; [| done].
  simpl in Hp. specialize (Hp r).
  destruct (failure_of c r) as [x|] eqn:Hf.
  - by eapply sound_failed.
  - apply sound_running; [| done].
    apply Forall_app. split; [done |]. by apply Forall_singleton.
Qed.

Lemma stepwise_inv : stepwise ex pool_inv.
Proof.
  intros i [tr js] Hs. unfold step_job. simpl.
  destruct (js !! i) as [[a|e|c k]|] eqn:Hi; simpl; try done.
  intros j. simpl. rewrite calls_of_app.
  specialize (Hs j). simpl in Hs.
  destruct (decide (j = i)) as [->|Hne].
  - rewrite list_lookup_insert_eq by (by eapply lookup_lt_Some).
    rewrite Hi in Hs. rewrite calls_of_cons, decide_True by done.
    by apply sound_snoc.
  - rewrite list_lookup_insert_ne by done.
    rewrite calls_of_cons, decide_False by congruence.
    by rewrite app_nil_r.
Qed.

(** The steps of the jobs add no call of the main thread and no pool
    method to the history, which they only extend. *)
Lemma stepwise_frame tr0 main ops :
  stepwise ex (λ s, ∃ evs, s.1 = tr0 ++ evs ∧
                        calls_of MainThread evs = main ∧
                        pool_calls evs = ops).
Proof.
  intros i [tr js] (evs & Htr & Hm & Ho). unfold step_job. simpl in *.
  destruct (js !! i) as [[a|e|c k]|] eqn:Hi; simpl; eauto.
  exists (evs ++ [Called (JobThread i) c (respond ex tr c)]).
  rewrite Htr, calls_of_app, pool_calls_app, Hm, Ho. simpl.
  rewrite <- app_assoc, !app_nil_r. done.
Qed.

(** Once every job has finished, nothing moves any more. *)
Lemma step_job_idle i s : all_finished s.2 → step_job ex i s = s.
Proof.
  intros Hall. unfold step_job.
  destruct (s.2 !! i) as [[a|e|c k]|] eqn:Hi; try done.
  by apply Hall in Hi.
Qed.

Lemma pool_burst_idle b s : all_finished s.2 → pool_burst ex b s = s.
Proof.
  intros Hall. induction b as [|i b IH]; [done |].
  simpl. by rewrite step_job_idle.
Qed.

Lemma drain_idle n order s : all_finished s.2 → drain ex n order s = s.
Proof.
  intros Hall. destruct (drain_burst n order s) as [b ->].
  by apply pool_burst_idle.
Qed.

Lemma completed_all js : all_finished js → completed js = length js.
Proof.
  unfold completed. induction js as [|p js IH]; intros Hall; [done |].
  rewrite filter_cons_True by (by apply (Hall 0)).
  simpl. f_equal. apply IH. intros j q Hj. by apply (Hall (S j)).
Qed.

Lemma finish_job_finished i s p :
  s.2 !! i = Some p →
  ∃ q, (finish_job ex i s).2 !! i = Some q ∧ finished q = true.
Proof.
  intros Hi. unfold finish_job. rewrite Hi.
  destruct (exec ex (JobThread i) p s.1) as [res tr']. simpl.
  exists (settle res). split; [| by destruct res].
  apply list_lookup_insert_eq. by eapply lookup_lt_Some.
Qed.

(** Draining the jobs in submission order completes [n] of them, or all
    of them. *)
Lemma drain_seq n k a s :
  a + k = length s.2 →
  (∀ j p, j < a → s.2 !! j = Some p → finished p = true) →
  n ≤ completed (drain ex n (seq a k) s).2 ∨
  all_finished (drain ex n (seq a k) s).2.
Proof.
  revert a s. induction k as [|k IH]; intros a s Hlen Hdone; simpl.
  - right. intros j p Hj. apply (Hdone j p); [| done].
    apply lookup_lt_Some in Hj. lia.
  - destruct (decide (n ≤ completed s.2)); [by left |].
    apply IH.
    + rewrite (stepwise_finish (λ s', length s'.2 = length s.2));
        [lia | apply stepwise_length | done].
    + intros j p Hj Hjp.
      destruct (decide (j = a)) as [->|Hne].
      * destruct (lookup_lt_is_Some_2 s.2 a) as [q Hq]; [lia |].
        destruct (finish_job_finished a s q Hq) as (q' & Hq' & Hfin).
        congruence.
      * destruct (lookup_lt_is_Some_2 s.2 j) as [q Hq]; [lia |].
        assert (finished q = true) as Hfin by (apply (Hdone j); [lia | done]).
        pose proof (stepwise_finish (λ s', s'.2 !! j = Some q) a s
                      (stepwise_finished j q Hfin) Hq) as Hkeep.
        simpl in Hkeep. congruence.
Qed.

Lemma drain_complete n s :
  n ≤ length s.2 → n ≤ completed (drain ex n (seq 0 (length s.2)) s).2.
Proof.
  intros Hn.
  destruct (drain_seq n (length s.2) 0 s) as [H | H]; [done | lia | done |].
  rewrite completed_all by done.
  rewrite (stepwise_drain (λ s', length s'.2 = length s.2));
    [done | apply stepwise_length | done].
Qed.

End Pool.

(** ** The fan-out of [run] *)

Section FanOut.
Context (ex : Executor).

Lemma phase_advance tr0 main ops n w :
  phase tr0 main ops n w → phase tr0 main ops n (advance ex w).
Proof.
  intros (Hinv & Hlen & Hfr). unfold phase, advance. simpl.
  set (b := hd [] (schedule w)). split; [| split].
  - rewrite <- surjective_pairing. by apply stepwise_burst, Hinv; apply stepwise_inv.
  - by apply (stepwise_burst ex (λ s, length s.2 = n)); [apply stepwise_length |].
  - by apply (stepwise_burst ex _ b (trace w, jobs w) (stepwise_frame ex tr0 main ops)).
Qed.

Lemma phase_record tr0 main ops n op w :
  phase tr0 main ops n w → phase tr0 main (ops ++ [op]) n (record op w).
Proof.
  intros (Hinv & Hlen & evs & Htr & Hm & Ho). unfold phase, record. simpl.
  split; [| split; [done |]].
  - intros i. specialize (Hinv i). simpl in *.
    rewrite calls_of_app. simpl. by rewrite app_nil_r.
  - exists (evs ++ [Pooled op]).
    rewrite Htr, calls_of_app, pool_calls_app, Hm, Ho, <- app_assoc. simpl.
    by rewrite app_nil_r.
Qed.

Lemma phase_enqueue tr0 main ops n job w :
  strict job → phase tr0 main ops n w →
  phase tr0 main ops (S n) (enqueue job w).
Proof.
  intros Hjob (Hinv & Hlen & Hfr). unfold phase, enqueue. simpl.
  split; [| split; [rewrite length_app; simpl; lia | done]].
  intros i. specialize (Hinv i). simpl in *.
  destruct (decide (i < length (jobs w))) as [Hlt|Hge].
  - by rewrite lookup_app_l.
  - rewrite lookup_ge_None_2 in Hinv by lia.
    rewrite lookup_app_r by lia.
    destruct (i - length (jobs w)) as [|d]; simpl.
    + rewrite Hinv. by apply sound_running.
    + done.
Qed.

Lemma pool_simple_job_phase tr0 main ops n method master node w :
  strict (method master node) → phase tr0 main ops n w →
  ∃ w', pool_simple_job ex method (master, node) w = (Some (Returned tt), w') ∧
        phase tr0 main (ops ++ [SimpleJob master node]) (S n) w'.
Proof.
  intros Hjob Hw. eexists. split; [done |].
  by apply phase_advance, phase_enqueue, phase_record.
Qed.

(** The loop of [run] submits one job for every node it iterates over, in
    order, and counts them. *)
Lemma for_in_phase tr0 main method master workers : ∀ ops n count w,
  (∀ node, strict (method master node)) → phase tr0 main ops n w →
  ∃ w', for_in workers count (λ node wait_count,
          pool_simple_job ex method (master, node);; mret (wait_count + 1)) w
        = (Some (Returned (count + length workers)), w') ∧
        phase tr0 main (ops ++ (SimpleJob master <$> workers))
          (n + length workers) w'.
Proof.
  induction workers as [|node workers IH]; intros ops n count w Hm Hw.
  - exists w. simpl. rewrite app_nil_r, !Nat.add_0_r. done.
  - destruct (pool_simple_job_phase tr0 main ops n method master node w)
      as (w1 & Hw1 & Hp1); [done.. |].
    destruct (IH (ops ++ [SimpleJob master node]) (S n) (count + 1) w1 Hm Hp1)
      as (w2 & Hw2 & Hp2).
    exists w2. split.
    + simpl. unfold mbind at 1, M_bind. unfold mbind at 1, M_bind.
      rewrite Hw1. unfold mret at 1, M_ret.
      etrans; [exact Hw2 |]. do 3 f_equal. simpl. lia.
    + rewrite fmap_cons, cons_middle, app_assoc.
      by replace (n + length (node :: workers)) with (S n + length workers)
        by (simpl; lia).
Qed.

Lemma pool_wait_phase tr0 main ops n w :
  phase tr0 main ops n w →
  ∃ w', pool_wait ex n w = (Some (Returned tt), w') ∧
        phase tr0 main (ops ++ [Wait n]) n w' ∧ all_finished (jobs w').
Proof.
  intros Hw.
  pose proof (phase_advance _ _ _ _ _ (phase_record _ _ _ _ (Wait n) _ Hw))
    as Hw1.
  unfold pool_wait. set (w1 := advance ex (record (Wait n) w)) in *.
  set (s := drain ex n (seq 0 (length (jobs w1))) (trace w1, jobs w1)).
  destruct Hw1 as (Hinv & Hlen & Hfr).
  assert (length s.2 = n) as Hslen.
  { by apply (stepwise_drain ex (λ s, length s.2 = n)); [apply stepwise_length |]. }
  assert (n ≤ completed s.2) as Hdone.
  { apply (drain_complete ex n (trace w1, jobs w1)).
    change (n ≤ length (jobs w1)). lia. }
  eexists. split; [by rewrite decide_True by done |].
  split; [split; [| split] |]; simpl.
  - rewrite <- surjective_pairing. by apply stepwise_drain; [apply stepwise_inv |].
  - done.
  - by apply (stepwise_drain ex _ n _ (trace w1, jobs w1)
                (stepwise_frame ex tr0 main (ops ++ [Wait n]))).
  - intros j p Hj.
    destruct (finished p) eqn:Hp; [done |]. exfalso.
    assert (completed s.2 < length s.2); [| lia].
    unfold completed. eapply length_filter_lt.
    + by eapply list_elem_of_lookup_2.
    + by rewrite Hp.
Qed.

Lemma pool_shutdown_idle w :
  all_finished (jobs w) →
  pool_shutdown ex w =
  (Some (Returned tt),
   {| trace := trace w ++ [Pooled Shutdown]; jobs := jobs w;
      schedule := tl (schedule w) |}).
Proof.
  intros Hall. unfold pool_shutdown, advance, record. simpl.
  rewrite pool_burst_idle by done. simpl. by rewrite drain_idle.
Qed.

End FanOut.

(** ** The course of [run] *)

Section Run.
Context (ex : Executor) (node_iter : Node → option (list Node)).

Lemma M_bind_returned {A B} (m : M A) (f : A → M B) w a w' :
  m w = (Some (Returned a), w') → (m ≫= f) w = f a w'.
Proof. intros H. unfold mbind, M_bind. by rewrite H. Qed.

Lemma call_here_log msg w :
  call_here ex (log_info msg) w =
  (Some (Returned tt),
   {| trace := trace w ++ [Called MainThread (LogInfo msg) RNone];
      jobs := jobs w; schedule := schedule w |}).
Proof. done. Qed.

(** From a pool without jobs, the fan-out submits one job per node, waits
    for as many, shuts the pool down once every job has finished, and
    logs the end of the run. *)
Lemma fan_out_spec self master workers tr0 w :
  phase tr0 [] [] 0 w →
  ∃ w' evs,
    (wait_count ← for_in workers 0 (λ node wait_count,
       pool_simple_job ex (_configure_torque_node self) (master, node);;
       mret (wait_count + 1));
     pool_wait ex wait_count;;
     pool_shutdown ex;;
     call_here ex (log_info done_message)) w = (Some (Returned tt), w') ∧
    trace w' = tr0 ++ evs ++
      [Pooled Shutdown; Called MainThread (LogInfo done_message) RNone] ∧
    calls_of MainThread evs = [] ∧
    pool_calls evs = (SimpleJob master <$> workers) ++ [Wait (length workers)] ∧
    pool_inv (trace w', jobs w') ∧ all_finished (jobs w') ∧
    length (jobs w') = length workers.
Proof.
  intros Hw.
  destruct (for_in_phase ex tr0 [] (_configure_torque_node self) master
              workers [] 0 0 w) as (w1 & Hw1 & Hp1);
    [intros; apply strict_configure_torque_node | done |].
  simpl in Hw1, Hp1.
  destruct (pool_wait_phase ex _ _ _ _ _ Hp1)
    as (w2 & Hw2 & (Hinv & Hlen & evs & Htr & Hmain & Hops) & Hall).
  eexists _, evs.
  split; [| split; [| split; [| split; [| split; [| split]]]]].
  - erewrite M_bind_returned by exact Hw1.
    erewrite M_bind_returned by exact Hw2.
    erewrite M_bind_returned by (by apply pool_shutdown_idle).
    apply call_here_log.
  - simpl. rewrite Htr, <- !app_assoc. done.
  - done.
  - done.
  - simpl. intros i. specialize (Hinv i). simpl in *.
    rewrite !calls_of_app. simpl. by rewrite !app_nil_r.
  - done.
  - done.
Qed.

(** The three ways a run goes: the controller stage raises; the worker
    list cannot be computed; or the fan-out takes place. *)
Lemma run_cases self nodes master user user_shell volumes sched :
  let m := exec ex MainThread (_configure_torque_master self master nodes) [] in
  let rw := run ex node_iter self nodes master user user_shell volumes
              (fresh sched) in
  (∃ x, m.1 = Raised x ∧ rw.1 = Some (Raised x) ∧
        trace rw.2 = m.2 ∧ jobs rw.2 = []) ∨
  (m.1 = Returned tt ∧ worker_set node_iter self nodes master = None ∧
   rw.1 = Some (Raised (TypeError "'Node' object is not iterable")) ∧
   trace rw.2 = m.2 ∧ jobs rw.2 = []) ∨
  (m.1 = Returned tt ∧
   ∃ workers evs,
     worker_set node_iter self nodes master = Some workers ∧
     rw.1 = Some (Returned tt) ∧
     trace rw.2 = m.2 ++ evs ++
       [Pooled Shutdown; Called MainThread (LogInfo done_message) RNone] ∧
     calls_of MainThread evs = [] ∧
     pool_calls evs =
       (SimpleJob master <$> workers) ++ [Wait (length workers)] ∧
     pool_inv (trace rw.2, jobs rw.2) ∧ all_finished (jobs rw.2) ∧
     length (jobs rw.2) = length workers).
Proof.
  intros m rw. subst m rw.
  assert (∀ i, calls_of (JobThread i)
            (exec ex MainThread
               (_configure_torque_master self master nodes) []).2 = [])
    as Hnojob.
  { intros i. rewrite exec_trace. by apply calls_of_called_ne. }
  destruct (run _ _ _ _ _ _ _ _ _) as [res w] eqn:Hrun.
  unfold run in Hrun. unfold mbind at 1, M_bind in Hrun.
  unfold call_here at 1 in Hrun. simpl trace in Hrun.
  destruct (exec ex MainThread _ []) as [[[]|x] trm].
  2: { left. exists x. by injection Hrun as <- <-. }
  right.
  assert (phase trm [] [] 0 {| trace := trm; jobs := []; schedule := sched |})
    as Hph.
  { split; [| split; [done |]].
    - intros i. apply Hnojob.
    - exists []. by rewrite app_nil_r. }
  unfold worker_set.
  destruct (compute_on_master self);
    [unfold list_iadd in Hrun; destruct (node_iter master) as [items|] |].
  - right. split; [done |].
    destruct (fan_out_spec self master
                (filter (λ n, alias n ≠ alias master) nodes ++ items) _ _ Hph)
      as (w' & evs & Hfan & H).
    assert ((res, w) = (Some (Returned tt), w')) as [= -> ->]
      by (rewrite <- Hrun; exact Hfan).
    by exists (filter (λ n, alias n ≠ alias master) nodes ++ items), evs.
  - left. by injection Hrun as <- <-.
  - right. split; [done |].
    destruct (fan_out_spec self master
                (filter (λ n, alias n ≠ alias master) nodes) _ _ Hph)
      as (w' & evs & Hfan & H).
    assert ((res, w) = (Some (Returned tt), w')) as [= -> ->]
      by (rewrite <- Hrun; exact Hfan).
    by exists (filter (λ n, alias n ≠ alias master) nodes), evs.
Qed.

End Run.

(** ** The scripts of the configurators *)

Lemma configure_torque_master_follows self master nodes :
  follows (_configure_torque_master self master nodes)
    (controller_script self master).
Proof.
  eapply follows_eq.
  - unfold _configure_torque_master, _uninstall_sge_master, log_info,
      apt_command, apt_install, ssh_execute.
    follows_tac.
  - reflexivity.
Qed.

Lemma configure_torque_node_split self master node :
  ∃ rest,
    _configure_torque_node self master node =
      (log_info ("Configuring PBS/Torque node " +:+ alias node);;
       _uninstall_sge_worker self node;; rest) ∧
    follows rest (worker_script master node).
Proof.
  eexists. split; [reflexivity |].
  eapply follows_eq.
  - unfold log_info, apt_command, apt_install, ssh_execute. follows_tac.
  - reflexivity.
Qed.

Section Removal.
Context (ex : Executor).

Lemma uninstall_sge_master_spec t self master tr :
  (exec ex t (_uninstall_sge_master self master) tr).1 = Returned tt ∧
  (history ex t (_uninstall_sge_master self master) tr).*1 =
    [LogInfo ("Removing SGE from " +:+ alias master);
     SshExecute (alias master)
       "cd /opt/sge6/; echo y | /opt/sge6/inst_sge -ux all" true true].
Proof. done. Qed.

Lemma uninstall_sge_worker_spec t self node tr :
  (exec ex t (_uninstall_sge_worker self node) tr).1 = Returned tt ∧
  Forall ok (history ex t (_uninstall_sge_worker self node) tr) ∧
  ∃ d,
    history ex t (_uninstall_sge_worker self node) tr !! 1 =
      Some (SshIsdir (alias node) "/opt/sge6", RBool d) ∧
    (history ex t (_uninstall_sge_worker self node) tr).*1 =
      removal_script node d.
Proof.
  unfold _uninstall_sge_worker, removal_script. simpl.
  destruct (isdir ex _ _ _) eqn:Hd; simpl.
  - split; [done |]. split; [by repeat constructor |]. by exists true.
  - split; [done |]. split; [by repeat constructor |]. by exists false.
Qed.

Lemma history_log_info t msg tr :
  history ex t (log_info msg) tr = [(LogInfo msg, RNone)] ∧
  exec ex t (log_info msg) tr =
    (Returned tt, tr ++ [Called t (LogInfo msg) RNone]).
Proof. done. Qed.

(** The calls of the node configurator: the opening log line, the removal
    of the prior scheduler, then the worker script as far as it gets. *)
Lemma configure_torque_node_history t self master node tr :
  ∃ d h,
    history ex t (_configure_torque_node self master node) tr =
      (LogInfo ("Configuring PBS/Torque node " +:+ alias node), RNone)
      :: history ex t (_uninstall_sge_worker self node)
           (tr ++ [Called t
                     (LogInfo ("Configuring PBS/Torque node " +:+ alias node))
                     RNone])
      ++ h ∧
    history ex t (_uninstall_sge_worker self node)
      (tr ++ [Called t
                (LogInfo ("Configuring PBS/Torque node " +:+ alias node))
                RNone]) !! 1 =
      Some (SshIsdir (alias node) "/opt/sge6", RBool d) ∧
    (history ex t (_uninstall_sge_worker self node)
       (tr ++ [Called t
                 (LogInfo ("Configuring PBS/Torque node " +:+ alias node))
                 RNone])).*1 = removal_script node d ∧
    h.*1 `prefix_of` worker_script master node ∧
    (Forall ok h → h.*1 = worker_script master node).
Proof.
  destruct (configure_torque_node_split self master node)
    as (rest & -> & Hrest).
  set (tr1 := tr ++ [Called t _ RNone]).
  destruct (uninstall_sge_worker_spec t self node tr1)
    as (Hret & _ & d & Hd & Hscript).
  exists d.
  rewrite history_bind.
  destruct (history_log_info t
              ("Configuring PBS/Torque node " +:+ alias node) tr) as [-> ->].
  rewrite history_bind. fold tr1.
  destruct (exec ex t (_uninstall_sge_worker self node) tr1) as [[[]|x] tr2];
    [| done].
  eexists. split; [reflexivity |]. split; [done |]. split; [done |].
  by apply history_follows.
Qed.

(** When no call fails, the node configurator makes all the calls of its
    scripts. *)
Lemma configure_torque_node_calls t self master node tr :
  Forall ok (history ex t (_configure_torque_node self master node) tr) →
  ∃ d,
    history ex t (_configure_torque_node self master node) tr !! 2 =
      Some (SshIsdir (alias node) "/opt/sge6", RBool d) ∧
    (history ex t (_configure_torque_node self master node) tr).*1 =
      LogInfo ("Configuring PBS/Torque node " +:+ alias node)
      :: removal_script node d ++ worker_script master node.
Proof.
  intros Hok.
  destruct (configure_torque_node_history t self master node tr)
    as (d & h' & Hh & Hd & Hrem & _ & Hall).
  exists d. rewrite Hh in Hok |- *.
  apply Forall_cons in Hok as [_ Hok].
  apply Forall_app in Hok as [_ Hok].
  split.
  - rewrite lookup_cons. rewrite lookup_app_l; [done |].
    by eapply lookup_lt_Some.
  - by rewrite fmap_cons, fmap_app, Hrem, (Hall Hok).
Qed.

End Removal.

(** * The claims *)

(** C3: for a fresh controller, one on which no call of the configurator
    fails, the controller configurator returns and emits, after the removal
    of the prior scheduler, the package-index refresh and the three package
    installs, exactly seven commands on the controller, in this order: stop
    the scheduler-policy service, stop the server service, write the
    controller's alias into the controller-hostname file, run the setup
    script non-interactively with the administrator identity, [qterm],
    start the server service, start the scheduler-policy service. *)
Theorem controller_command_sequence ex self master nodes t tr :
  let m := alias master in
  let h := history ex t (_configure_torque_master self master nodes) tr in
  Forall ok h →
  (exec ex t (_configure_torque_master self master nodes) tr).1 = Returned tt ∧
  h.*1 =
    [LogInfo ("Configuring PBS/Torque controller on " +:+ m);
     LogInfo ("Removing SGE from " +:+ m);
     SshExecute m "cd /opt/sge6/; echo y | /opt/sge6/inst_sge -ux all"
       true true;
     AptCommand m "update";
     LogInfo "master: installing package torque-server";
     AptInstall m "torque-server";
     LogInfo "master: installing package torque-scheduler";
     AptInstall m "torque-scheduler";
     LogInfo "master: installing package torque-client";
     AptInstall m "torque-client";
     LogInfo "master: executing command: service torque-scheduler stop";
     SshExecute m "service torque-scheduler stop" true false;
     LogInfo "master: executing command: service torque-server stop";
     SshExecute m "service torque-server stop" true false;
     LogInfo ("master: executing command: echo '" +:+ m
              +:+ "' > '/var/spool/torque/server_name'");
     SshExecute m ("echo '" +:+ m +:+ "' > '/var/spool/torque/server_name'")
       true false;
     LogInfo ("master: executing command: "
              +:+ "echo 'y' | sh /usr/share/doc/torque-common/torque.setup "
              +:+ py_str (torque_admin self));
     SshExecute m
       ("echo 'y' | sh /usr/share/doc/torque-common/torque.setup "
        +:+ py_str (torque_admin self)) true false;
     LogInfo "master: executing command: qterm";
     SshExecute m "qterm" true false;
     LogInfo "master: executing command: service torque-server start";
     SshExecute m "service torque-server start" true false;
     LogInfo "master: executing command: service torque-scheduler start";
     SshExecute m "service torque-scheduler start" true false].
Proof.
  intros m h Hok. split.
  - destruct (exec_returned_iff ex t
                (_configure_torque_master self master nodes) tr) as [_ Hret].
    { apply strict_configure_torque_master. }
    by destruct (Hret Hok) as [[] ->].
  - destruct (history_follows ex t _ _ tr
                (configure_torque_master_follows self master nodes))
      as [_ Hall].
    exact (Hall Hok).
Qed.

Lemma controller_command_sequence_witness :
  (exec quiet MainThread
     (_configure_torque_master default_plugin master0 [master0; node001]) []).1
  = Returned tt ∧
  last (history quiet MainThread
          (_configure_torque_master default_plugin master0 [master0; node001])
          []).*1
  = Some (SshExecute "master" "service torque-scheduler start" true false).
Proof.
  destruct (controller_command_sequence quiet default_plugin master0
              [master0; node001] MainThread []) as [Hret Hcalls].
  - vm_compute. repeat constructor.
  - split; [exact Hret |]. rewrite Hcalls. reflexivity.
Defined.

(** C5: whenever no call of the node configurator fails, it returns and
    performs, in order: the removal of the prior scheduler (whose exit
    status is ignored, and whose uninstall command depends on the
    directory test), the package-index refresh and the install of the
    worker package, the registration command naming the worker's alias on
    the controller, then on the worker: stop the worker service, write the
    controller's alias into the local controller-hostname file, and start
    the worker service behind a one-second sleep. *)
Theorem node_configurator_sequence ex self master node t tr :
  let m := alias master in
  let n := alias node in
  let h := history ex t (_configure_torque_node self master node) tr in
  Forall ok h →
  (exec ex t (_configure_torque_node self master node) tr).1 = Returned tt ∧
  ∃ d,
    h !! 2 = Some (SshIsdir n "/opt/sge6", RBool d) ∧
    h.*1 =
      [LogInfo ("Configuring PBS/Torque node " +:+ n);
       LogInfo ("Removing SGE from " +:+ n);
       SshIsdir n "/opt/sge6";
       if d then SshExecute n "/opt/sge6/inst_sge -ux" true true
       else LogInfo "SGE already uninstalled.";
       AptCommand n "update";
       LogInfo "node: installing package torque-mom";
       AptInstall n "torque-mom";
       LogInfo ("master: executing command: qmgr -c 'create node "
                +:+ n +:+ "'");
       SshExecute m ("qmgr -c 'create node " +:+ n +:+ "'") true false;
       LogInfo "node: executing command: service torque-mom stop";
       SshExecute n "service torque-mom stop" true false;
       LogInfo ("node: executing command: echo '" +:+ m
                +:+ "' > '/var/spool/torque/server_name'");
       SshExecute n
         ("echo '" +:+ m +:+ "' > '/var/spool/torque/server_name'")
         true false;
       LogInfo "node: executing command: sleep 1; service torque-mom start";
       SshExecute n "sleep 1; service torque-mom start" true false].
Proof.
  intros m n h Hok. split.
  - destruct (exec_returned_iff ex t
                (_configure_torque_node self master node) tr) as [_ Hret].
    { apply strict_configure_torque_node. }
    by destruct (Hret Hok) as [[] ->].
  - destruct (configure_torque_node_calls ex t self master node tr Hok)
      as (d & Hd & Hcalls).
    exists d. split; [exact Hd | exact Hcalls].
Qed.

Lemma node_configurator_sequence_witness :
  (exec quiet (JobThread 0)
     (_configure_torque_node workers_only_plugin master0 node001) []).1
  = Returned tt ∧
  (history quiet (JobThread 0)
     (_configure_torque_node workers_only_plugin master0 node001) []).*1 !! 8
  = Some (SshExecute "master" "qmgr -c 'create node node001'" true false).
Proof.
  destruct (node_configurator_sequence quiet workers_only_plugin master0
              node001 (JobThread 0) []) as (Hret & d & Hd & Hcalls).
  - vm_compute. repeat constructor.
  - split; [exact Hret |]. rewrite Hcalls. reflexivity.
Defined.

(** C7: the removal of the prior scheduler returns normally whatever the
    remote executor answers, on the controller and on a worker; on a
    worker without the prior scheduler's directory the uninstall command
    is not issued at all; and in both configurators the step that follows
    the removal, the package-index refresh, is always reached. *)
Theorem sge_removal_is_tolerated ex self master node nodes t tr :
  (exec ex t (_uninstall_sge_master self master) tr).1 = Returned tt ∧
  (history ex t (_uninstall_sge_master self master) tr).*1 =
    [LogInfo ("Removing SGE from " +:+ alias master);
     SshExecute (alias master)
       "cd /opt/sge6/; echo y | /opt/sge6/inst_sge -ux all" true true] ∧
  (exec ex t (_uninstall_sge_worker self node) tr).1 = Returned tt ∧
  (∃ d,
     history ex t (_uninstall_sge_worker self node) tr !! 1 =
       Some (SshIsdir (alias node) "/opt/sge6", RBool d) ∧
     (history ex t (_uninstall_sge_worker self node) tr).*1 =
       [LogInfo ("Removing SGE from " +:+ alias node);
        SshIsdir (alias node) "/opt/sge6";
        if d then SshExecute (alias node) "/opt/sge6/inst_sge -ux" true true
        else LogInfo "SGE already uninstalled."]) ∧
  (∃ r, history ex t (_configure_torque_master self master nodes) tr !! 3 =
          Some (AptCommand (alias master) "update", r)) ∧
  (∃ r, history ex t (_configure_torque_node self master node) tr !! 4 =
          Some (AptCommand (alias node) "update", r)).
Proof.
  destruct (uninstall_sge_master_spec ex t self master tr) as [Hm Hmh].
  destruct (uninstall_sge_worker_spec ex t self node tr)
    as (Hw & _ & d & Hd & Hwh).
  split; [done |]. split; [done |]. split; [done |].
  split; [by exists d |]. split.
  - eexists. reflexivity.
  - unfold _configure_torque_node, _uninstall_sge_worker. simpl.
    destruct (isdir ex _ _ _); simpl; eexists; reflexivity.
Qed.

(** A run on which both removals of the prior scheduler exit with status
    1 goes through all its stages and returns. *)
Example run_survives_failed_removal :
  let rw := run {| exit_status := λ _ _ c,
                     if decide (c = "/opt/sge6/inst_sge -ux"
                                ∨ c = "cd /opt/sge6/; echo y | /opt/sge6/inst_sge -ux all")
                     then 1%Z else 0%Z;
                   isdir := λ _ _ _, true;
                   apt_command_status := λ _ _ _, 0%Z;
                   apt_install_status := λ _ _ _, 0%Z |}
              plain_object workers_only_plugin [master0; node001] master0
              PyNone PyNone PyNone (fresh []) in
  rw.1 = Some (Returned tt) ∧
  jobs rw.2 = [Ret tt] ∧
  pool_calls (trace rw.2) = [SimpleJob master0 node001; Wait 1; Shutdown] ∧
  calls_of (JobThread 0) (trace rw.2) !! 3
  = Some (SshExecute "node001" "/opt/sge6/inst_sge -ux" true true, RStatus 1).
Proof. vm_compute. done. Qed.

(** ** Failures in a history *)

Lemma Forall_ok_no_failure h pre c r post x :
  Forall ok h → h = pre ++ (c, r) :: post → failure_of c r = Some x → False.
Proof.
  intros Hok -> Hf. apply Forall_app in Hok as [_ Hok].
  apply Forall_cons in Hok as [Hc _]. unfold ok in Hc; simpl in Hc.
  congruence.
Qed.


(** C4: as soon as a call of the main thread fails (the package-index
    refresh, a package install or a command of the controller sequence:
    the main thread makes no other call that can fail), the main thread
    makes no further call, no job is submitted to the pool, which is
    neither waited for nor shut down, no worker job makes any call, and
    the error of the failed call is what [run] raises. *)
Theorem controller_failure_aborts_run ex node_iter self nodes master user
    user_shell volumes sched pre c r post x :
  let rw := run ex node_iter self nodes master user user_shell volumes
              (fresh sched) in
  calls_of MainThread (trace rw.2) = pre ++ (c, r) :: post →
  failure_of c r = Some x →
  post = [] ∧
  rw.1 = Some (Raised x) ∧
  pool_calls (trace rw.2) = [] ∧
  jobs rw.2 = [] ∧
  ∀ i, calls_of (JobThread i) (trace rw.2) = [].
Proof.
  intros rw Hcalls Hf. subst rw.
  pose proof (exec_trace ex MainThread
                (_configure_torque_master self master nodes) []) as Htr.
  rewrite app_nil_l in Htr.
  pose proof (exec_sound ex MainThread _ []
                (strict_configure_torque_master self master nodes)) as Hs.
  set (h := history ex MainThread _ []) in *. clearbody h.
  destruct (run_cases ex node_iter self nodes master user user_shell volumes
              sched)
    as [(x' & Hm & Hres & Ht & Hj) | [(Hm & _ & _ & Ht & _) |
        (Hm & workers & evs & _ & _ & Ht & Hmain & _)]];
    rewrite Ht, Htr in *; rewrite Hm in Hs; simpl in Hs.
  - rewrite calls_of_called in Hcalls.
    destruct (sound_final _ _ _ _ _ _ _ Hs Hcalls Hf) as [-> [= ->]].
    split; [done |]. split; [done |].
    split; [apply pool_calls_called |]. split; [done |].
    intros i. by apply calls_of_called_ne.
  - rewrite calls_of_called in Hcalls. apply sound_ret in Hs.
    destruct (Forall_ok_no_failure _ _ _ _ _ _ Hs Hcalls Hf).
  - rewrite !calls_of_app, calls_of_called, Hmain in Hcalls.
    simpl in Hcalls. apply sound_ret in Hs.
    exfalso. eapply Forall_ok_no_failure; [| exact Hcalls | exact Hf].
    apply Forall_app. split; [done |]. by repeat constructor.
Qed.

Lemma controller_failure_aborts_run_witness :
  let rw := run (failing_on "qterm") plain_object workers_only_plugin
              [master0; node001] master0 PyNone PyNone PyNone (fresh []) in
  rw.1 = Some (Raised (RemoteCommandFailed "master" "qterm" 1)) ∧
  pool_calls (trace rw.2) = [] ∧ jobs rw.2 = [].
Proof.
  intros rw.
  assert (calls_of MainThread (trace rw.2)
          = take 19 (calls_of MainThread (trace rw.2))
            ++ (SshExecute "master" "qterm" true false, RStatus 1) :: [])
    as Hcalls by (vm_compute; reflexivity).
  assert (failure_of (SshExecute "master" "qterm" true false) (RStatus 1)
          = Some (RemoteCommandFailed "master" "qterm" 1)) as Hf
    by reflexivity.
  pose proof (controller_failure_aborts_run (failing_on "qterm") plain_object
                workers_only_plugin [master0; node001] master0
                PyNone PyNone PyNone [] _ _ _ _ _ Hcalls Hf) as H.
  destruct H as (_ & Hres & Hpool & Hjobs & _).
  exact (conj Hres (conj Hpool Hjobs)).
Defined.

(** C6: when the registration command of a worker job exits with a
    non-zero status, that job makes no further call (its commands on the
    worker are not executed) and is left with the error of the
    registration; every job of the pool, this one and the others, has
    completed when [run] is over; a job ends in an error only through a
    failed call of its own; and [run] returns normally to its caller. *)
Theorem worker_registration_failure_is_contained ex node_iter self nodes
    master user user_shell volumes sched i host a pre r post :
  let rw := run ex node_iter self nodes master user user_shell volumes
              (fresh sched) in
  let cmd := "qmgr -c 'create node " +:+ a +:+ "'" in
  calls_of (JobThread i) (trace rw.2)
    = pre ++ (SshExecute host cmd true false, r) :: post →
  status_of r ≠ 0%Z →
  post = [] ∧
  jobs rw.2 !! i = Some (Raise (RemoteCommandFailed host cmd (status_of r))) ∧
  all_finished (jobs rw.2) ∧
  (∀ j x, jobs rw.2 !! j = Some (Raise x) →
     ∃ h' c' r', calls_of (JobThread j) (trace rw.2) = h' ++ [(c', r')] ∧
                 Forall ok h' ∧ failure_of c' r' = Some x) ∧
  rw.1 = Some (Returned tt).
Proof.
  intros rw cmd Hcalls Hr. subst rw.
  assert (failure_of (SshExecute host cmd true false) r
          = Some (RemoteCommandFailed host cmd (status_of r))) as Hf.
  { simpl. by rewrite bool_decide_true. }
  assert (∀ i, calls_of (JobThread i)
            (exec ex MainThread
               (_configure_torque_master self master nodes) []).2 = [])
    as Hnojob.
  { intros k. rewrite exec_trace. by apply calls_of_called_ne. }
  destruct (run_cases ex node_iter self nodes master user user_shell volumes
              sched)
    as [(x' & _ & _ & Ht & _) | [(_ & _ & _ & Ht & _) |
        (_ & workers & evs & _ & Hres & _ & _ & _ & Hinv & Hall & _)]].
  - rewrite Ht, Hnojob in Hcalls. by destruct pre.
  - rewrite Ht, Hnojob in Hcalls. by destruct pre.
  - pose proof (Hinv i) as Hi. simpl in Hi.
    destruct (jobs _ !! i) as [p|] eqn:Hp.
    2: { rewrite Hi in Hcalls. by destruct pre. }
    destruct (sound_final _ _ _ _ _ _ _ Hi Hcalls Hf) as [-> ->].
    split; [done |]. split; [done |]. split; [done |]. split; [| done].
    intros j x Hj. pose proof (Hinv j) as Hjs. simpl in Hjs.
    rewrite Hj in Hjs. by apply sound_raise in Hjs.
Qed.

Lemma worker_registration_failure_is_contained_witness :
  let rw := run (failing_on "qmgr -c 'create node node001'") plain_object
              workers_only_plugin [master0; node001; node002] master0
              PyNone PyNone PyNone (fresh [[0; 1]; [1; 0; 0]; [1; 0]]) in
  jobs rw.2 !! 0 =
    Some (Raise (RemoteCommandFailed "master"
                   "qmgr -c 'create node node001'" 1)) ∧
  all_finished (jobs rw.2) ∧
  rw.1 = Some (Returned tt).
Proof.
  intros rw.
  assert (calls_of (JobThread 0) (trace rw.2)
          = take 8 (calls_of (JobThread 0) (trace rw.2))
            ++ (SshExecute "master"
                  ("qmgr -c 'create node " +:+ "node001" +:+ "'") true false,
                RStatus 1) :: [])
    as Hcalls by (vm_compute; reflexivity).
  assert (status_of (RStatus 1) ≠ 0%Z) as Hr by (simpl; lia).
  pose proof (worker_registration_failure_is_contained
                (failing_on "qmgr -c 'create node node001'") plain_object
                workers_only_plugin [master0; node001; node002] master0
                PyNone PyNone PyNone [[0; 1]; [1; 0; 0]; [1; 0]]
                _ _ _ _ _ _ Hcalls Hr) as H.
  destruct H as (_ & Hjob & Hall & _ & Hres).
  exact (conj Hjob (conj Hall Hres)).
Defined.

(** ** Adding and removing a node *)

Section Membership.
Context (ex : Executor).

Lemma on_add_node_exec t self node nodes master user user_shell volumes tr :
  history ex t (on_add_node self node nodes master user user_shell volumes) tr
    = history ex t (_configure_torque_node self master node) tr ∧
  exec ex t (on_add_node self node nodes master user user_shell volumes) tr
    = exec ex t (_configure_torque_node self master node) tr.
Proof.
  unfold on_add_node. rewrite history_bind, exec_bind.
  destruct (exec ex t (_configure_torque_node self master node) tr)
    as [[[]|x] tr']; simpl; by rewrite app_nil_r.
Qed.

Lemma on_remove_node_history t self node nodes master user user_shell
    volumes tr :
  (history ex t (on_remove_node self node nodes master user user_shell volumes)
     tr).*1 =
  [LogInfo ("master: executing command: qmgr -c 'delete node "
            +:+ alias node +:+ "'");
   SshExecute (alias master) ("qmgr -c 'delete node " +:+ alias node +:+ "'")
     true false].
Proof.
  unfold on_remove_node, _deconfigure_torque_node. simpl.
  by destruct (bool_decide _).
Qed.

End Membership.

(** C8: when [on_add_node] has returned and [on_remove_node] follows for
    the same node, the two together issue the registration command of that
    alias exactly once and its deregistration command exactly once, both
    on the controller and in that order; [on_remove_node] makes two calls
    only, a log line and the deregistration on the controller, hence none
    on the removed worker. *)
Theorem add_then_remove_node ex self node nodes master user user_shell
    volumes t tr :
  let add := exec ex t
               (on_add_node self node nodes master user user_shell volumes)
               tr in
  let hadd := history ex t
                (on_add_node self node nodes master user user_shell volumes)
                tr in
  let hrem := history ex t
                (on_remove_node self node nodes master user user_shell volumes)
                add.2 in
  let reg := SshExecute (alias master)
               ("qmgr -c 'create node " +:+ alias node +:+ "'") true false in
  let dereg := SshExecute (alias master)
                 ("qmgr -c 'delete node " +:+ alias node +:+ "'") true false in
  add.1 = Returned tt →
  filter (λ c, c = reg ∨ c = dereg) (hadd ++ hrem).*1 = [reg; dereg] ∧
  hrem.*1 =
    [LogInfo ("master: executing command: qmgr -c 'delete node "
              +:+ alias node +:+ "'"); dereg] ∧
  (alias node ≠ alias master →
   Forall (λ c, host_of c ≠ Some (alias node)) hrem.*1).
Proof.
  intros add hadd hrem reg dereg Hret. subst add hadd hrem.
  destruct (on_add_node_exec ex t self node nodes master user user_shell
              volumes tr) as [Hh He].
  rewrite He in Hret |- *. rewrite Hh.
  assert (Forall ok (history ex t (_configure_torque_node self master node) tr))
    as Hok.
  { apply exec_returned_iff; [apply strict_configure_torque_node |].
    by exists tt. }
  destruct (configure_torque_node_calls ex t self master node tr Hok)
    as (d & _ & Hcalls).
  rewrite fmap_app, Hcalls, on_remove_node_history.
  split; [| split; [done |]].
  - assert (∀ c, cmd_head c ≠ Some "q"%char → ¬ (c = reg ∨ c = dereg))
      as Hnot.
    { intros c Hc [->| ->]; by apply Hc. }
    destruct d; simpl;
      repeat first
        [ rewrite filter_cons_True by (by left + by right)
        | rewrite filter_cons_False by (by apply Hnot) ];
      done.
  - intros Hne. repeat constructor; simpl; congruence.
Qed.

Lemma add_then_remove_node_witness :
  let add := exec quiet MainThread
               (on_add_node workers_only_plugin node002 [master0; node001]
                  master0 PyNone PyNone PyNone) [] in
  filter (λ c, c = SshExecute "master" "qmgr -c 'create node node002'"
                     true false
               ∨ c = SshExecute "master" "qmgr -c 'delete node node002'"
                       true false)
    (history quiet MainThread
       (on_add_node workers_only_plugin node002 [master0; node001]
          master0 PyNone PyNone PyNone) []
     ++ history quiet MainThread
          (on_remove_node workers_only_plugin node002 [master0; node001]
             master0 PyNone PyNone PyNone) add.2).*1
  = [SshExecute "master" "qmgr -c 'create node node002'" true false;
     SshExecute "master" "qmgr -c 'delete node node002'" true false].
Proof.
  intros add.
  assert (add.1 = Returned tt) as Hret by (vm_compute; reflexivity).
  exact (proj1 (add_then_remove_node quiet workers_only_plugin node002
                  [master0; node001] master0 PyNone PyNone PyNone
                  MainThread [] Hret)).
Defined.

(** ** The constructor's flag *)

Lemma ascii_lower_t c :
  ascii_lower c = "t"%char ↔ c = "t"%char ∨ c = "T"%char.
Proof.
  destruct c as [[] [] [] [] [] [] [] []]; vm_compute; split;
    first [ by intros [=] | by intros [[=]|[=]] | by auto ].
Qed.

Lemma ascii_lower_r c :
  ascii_lower c = "r"%char ↔ c = "r"%char ∨ c = "R"%char.
Proof.
  destruct c as [[] [] [] [] [] [] [] []]; vm_compute; split;
    first [ by intros [=] | by intros [[=]|[=]] | by auto ].
Qed.

Lemma ascii_lower_u c :
  ascii_lower c = "u"%char ↔ c = "u"%char ∨ c = "U"%char.
Proof.
  destruct c as [[] [] [] [] [] [] [] []]; vm_compute; split;
    first [ by intros [=] | by intros [[=]|[=]] | by auto ].
Qed.

Lemma ascii_lower_e c :
  ascii_lower c = "e"%char ↔ c = "e"%char ∨ c = "E"%char.
Proof.
  destruct c as [[] [] [] [] [] [] [] []]; vm_compute; split;
    first [ by intros [=] | by intros [[=]|[=]] | by auto ].
Qed.

(** The decimal rendering of a positive number begins with a digit. *)
Lemma pretty_N_go_head x s :
  (0 < x)%N → ∃ d s', pretty_N_go x s = String (pretty_N_char d) s'.
Proof.
  revert s. induction (N.lt_wf_0 x) as [x _ IH]; intros s Hx.
  rewrite pretty_N_go_step by done.
  destruct (decide (x `div` 10 = 0)%N) as [->|Hne].
  - rewrite pretty_N_go_0. eauto.
  - apply IH; [by apply N.div_lt | by apply N.neq_0_lt_0].
Qed.

Lemma pretty_N_char_lower d : ascii_lower (pretty_N_char d) ≠ "t"%char.
Proof. unfold pretty_N_char. by repeat case_match. Qed.

Lemma pretty_Z_not_true (z : Z) : str_lower (pretty z) ≠ "true".
Proof.
  destruct z as [|p|p]; [done | |].
  - unfold pretty, pretty_Z, pretty, pretty_positive, pretty, pretty_N.
    rewrite decide_False by done.
    destruct (pretty_N_go_head (N.pos p) "") as (d & s' & ->); [lia |].
    simpl. intros [= Hd _]. by apply pretty_N_char_lower in Hd.
  - unfold pretty, pretty_Z. simpl. by intros [=].
Qed.

Lemma str_lower_true s :
  str_lower s = "true" ↔
  ∃ c1 c2 c3 c4,
    s = String c1 (String c2 (String c3 (String c4 ""))) ∧
    (c1 = "t" ∨ c1 = "T")%char ∧ (c2 = "r" ∨ c2 = "R")%char ∧
    (c3 = "u" ∨ c3 = "U")%char ∧ (c4 = "e" ∨ c4 = "E")%char.
Proof.
  split.
  - destruct s as [|c1 [|c2 [|c3 [|c4 [|c5 s]]]]]; simpl; try by intros [=].
    intros [= H1 H2 H3 H4].
    exists c1, c2, c3, c4. split; [done |].
    by rewrite <- ascii_lower_t, <- ascii_lower_r, <- ascii_lower_u,
      <- ascii_lower_e.
  - intros (c1 & c2 & c3 & c4 & -> & H1 & H2 & H3 & H4). simpl.
    apply ascii_lower_t in H1. apply ascii_lower_r in H2.
    apply ascii_lower_u in H3. apply ascii_lower_e in H4.
    by rewrite H1, H2, H3, H4.
Qed.

(** C10: the stored flag is true exactly when the lowercased string
    rendering of the constructor's argument is ["true"], that is for the
    boolean [True] and for the sixteen spellings of [true] in either case,
    and for nothing else: [True], ["True"] and ["TRUE"] enable it, while
    ["yes"], ["1"], the number [1] and [None] leave it disabled. *)
Theorem compute_on_master_flag (v admin : pyvalue) :
  (compute_on_master (__init__ v admin) = true ↔
   str_lower (py_str v) = "true") ∧
  (compute_on_master (__init__ v admin) = true ↔
   v = PyBool true ∨
   ∃ c1 c2 c3 c4,
     v = PyStr (String c1 (String c2 (String c3 (String c4 "")))) ∧
     (c1 = "t" ∨ c1 = "T")%char ∧ (c2 = "r" ∨ c2 = "R")%char ∧
     (c3 = "u" ∨ c3 = "U")%char ∧ (c4 = "e" ∨ c4 = "E")%char) ∧
  compute_on_master (__init__ (PyBool true) admin) = true ∧
  compute_on_master (__init__ (PyStr "True") admin) = true ∧
  compute_on_master (__init__ (PyStr "TRUE") admin) = true ∧
  compute_on_master (__init__ (PyStr "yes") admin) = false ∧
  compute_on_master (__init__ (PyStr "1") admin) = false ∧
  compute_on_master (__init__ (PyInt 1) admin) = false ∧
  compute_on_master (__init__ PyNone admin) = false.
Proof.
  split; [apply bool_decide_eq_true |].
  split; [| by repeat split].
  simpl. rewrite bool_decide_eq_true. destruct v as [|[]|z|s]; simpl.
  - split; [by intros [=] | by intros [[=] | (?&?&?&?&[=]&_)]].
  - split; [by left | done].
  - split; [by intros [=] | by intros [[=] | (?&?&?&?&[=]&_)]].
  - split; [by intros ?%pretty_Z_not_true
           | by intros [[=] | (?&?&?&?&[=]&_)]].
  - rewrite str_lower_true. split.
    + intros (c1 & c2 & c3 & c4 & -> & H). right. by exists c1, c2, c3, c4.
    + intros [[=] | (c1 & c2 & c3 & c4 & [= ->] & H)].
      by exists c1, c2, c3, c4.
Qed.

(** ** The worker list of [run] *)

(** Without the controller as a worker, [run] iterates over the machines
    whose alias differs from the controller's. *)
Lemma worker_set_workers_only node_iter self nodes master :
  compute_on_master self = false →
  worker_set node_iter self nodes master
  = Some (filter (λ n, alias n ≠ alias master) nodes).
Proof. unfold worker_set. by intros ->. Qed.

(** Were a node to iterate as the list of itself, [+=] would add the
    controller once, after the others. *)
Lemma worker_set_singleton_iter node_iter self nodes master :
  compute_on_master self = true →
  node_iter master = Some [master] →
  ∃ workers,
    worker_set node_iter self nodes master = Some workers ∧
    workers = filter (λ n, alias n ≠ alias master) nodes ++ [master] ∧
    length (filter (λ n, alias n = alias master) workers) = 1.
Proof.
  unfold worker_set. intros -> ->. eexists. split; [done |]. split; [done |].
  rewrite filter_app, length_app.
  rewrite (filter_cons_True _ master []) by done. simpl.
  assert (filter (λ n, alias n = alias master)
            (filter (λ n, alias n ≠ alias master) nodes) = []) as ->; [| done].
  induction nodes as [|n nodes IH]; [done |].
  destruct (decide (alias n = alias master)) as [Heq|Hne].
  - by rewrite (filter_cons_False (λ n, alias n ≠ alias master)) by tauto.
  - rewrite (filter_cons_True (λ n, alias n ≠ alias master)) by done.
    by rewrite filter_cons_False.
Qed.

(** Once the worker list is computed, [run] submits one job per worker,
    waits for as many jobs as it submitted, shuts the pool down once, and
    returns. *)
Lemma run_pool_protocol ex node_iter self nodes master user user_shell
    volumes sched workers :
  let rw := run ex node_iter self nodes master user user_shell volumes
              (fresh sched) in
  (exec ex MainThread (_configure_torque_master self master nodes) []).1
    = Returned tt →
  worker_set node_iter self nodes master = Some workers →
  rw.1 = Some (Returned tt) ∧
  pool_calls (trace rw.2)
    = (SimpleJob master <$> workers) ++ [Wait (length workers); Shutdown] ∧
  length (jobs rw.2) = length workers ∧ all_finished (jobs rw.2).
Proof.
  intros rw Hm Hws. subst rw.
  pose proof (exec_trace ex MainThread
                (_configure_torque_master self master nodes) []) as Htr.
  destruct (run_cases ex node_iter self nodes master user user_shell volumes
              sched)
    as [(x' & Hm' & _) | [(_ & Hws' & _) |
        (_ & ws & evs & Hws' & Hres & Ht & _ & Hops & _ & Hall & Hlen)]].
  - congruence.
  - congruence.
  - assert (ws = workers) as -> by congruence.
    split; [done |]. split; [| done].
    rewrite Ht, Htr, !pool_calls_app, pool_calls_called, Hops.
    simpl. by rewrite <- app_assoc.
Qed.

(** C1: with the controller as a worker (the constructor's default) and a
    [Node] class without iteration, [run] derives no worker list at all:
    once the controller stage has returned, [compute_nodes += master]
    raises [TypeError], which [run] raises to its caller with no job
    submitted. *)
Theorem run_compute_on_master_raises ex self nodes master user user_shell
    volumes sched :
  let rw := run ex plain_object self nodes master user user_shell volumes
              (fresh sched) in
  compute_on_master self = true →
  (exec ex MainThread (_configure_torque_master self master nodes) []).1
    = Returned tt →
  worker_set plain_object self nodes master = None ∧
  rw.1 = Some (Raised (TypeError "'Node' object is not iterable")) ∧
  pool_calls (trace rw.2) = [] ∧
  jobs rw.2 = [].
Proof.
  intros rw Hflag Hm. subst rw.
  pose proof (exec_trace ex MainThread
                (_configure_torque_master self master nodes) []) as Htr.
  destruct (run_cases ex plain_object self nodes master user user_shell
              volumes sched)
    as [(x' & Hm' & _) | [(_ & Hws & Hres & Ht & Hj) |
        (_ & ws & evs & Hws & _)]].
  - congruence.
  - split; [done |]. split; [done |]. split; [| done].
    rewrite Ht, Htr. apply pool_calls_called.
  - unfold worker_set in Hws. by rewrite Hflag in Hws.
Qed.

Lemma run_compute_on_master_raises_witness :
  let rw := run quiet plain_object default_plugin [master0; node001] master0
              PyNone PyNone PyNone (fresh []) in
  worker_set plain_object default_plugin [master0; node001] master0 = None ∧
  rw.1 = Some (Raised (TypeError "'Node' object is not iterable")) ∧
  pool_calls (trace rw.2) = [] ∧
  jobs rw.2 = [].
Proof.
  intros rw.
  assert (compute_on_master default_plugin = true) as Hflag by reflexivity.
  assert ((exec quiet MainThread
             (_configure_torque_master default_plugin master0
                [master0; node001]) []).1 = Returned tt) as Hm
    by (vm_compute; reflexivity).
  exact (run_compute_on_master_raises quiet default_plugin [master0; node001]
           master0 PyNone PyNone PyNone [] Hflag Hm).
Defined.

(** C9: on the default plugin the pool is never reached: for a cluster
    of a controller and two workers on which every command succeeds, [run]
    raises [TypeError] after the controller stage, having submitted no
    job and called neither [wait] nor [shutdown]. *)
Theorem run_default_plugin_skips_pool :
  let rw := run quiet plain_object default_plugin
              [master0; node001; node002] master0 PyNone PyNone PyNone
              (fresh []) in
  rw.1 = Some (Raised (TypeError "'Node' object is not iterable")) ∧
  pool_calls (trace rw.2) = [] ∧
  jobs rw.2 = [] ∧
  last (calls_of MainThread (trace rw.2))
  = Some (SshExecute "master" "service torque-scheduler start" true false,
          RStatus 0).
Proof. vm_compute. done. Qed.

(** * Further properties of the plugin *)

(** ** Residual programs *)

Lemma after_app {A} (p : prog A) h1 h2 :
  after p (h1 ++ h2) = after p h1 ≫= λ q, after q h2.
Proof.
  revert p. induction h1 as [|[c r] h1 IH]; intros p; [reflexivity |].
  destruct p as [a|e|c' k]; simpl; [reflexivity.. |].
  destruct (decide (c' = c)); [apply IH | done].
Qed.

(** A program following a script makes, whatever the answers, calls that
    begin the script. *)
Lemma after_follows {A} (p : prog A) cs h q :
  follows p cs → after p h = Some q → h.*1 `prefix_of` cs.
Proof.
  revert p cs. induction h as [|[c r] h IH]; intros p cs Hp Hq.
  - apply prefix_nil.
  - simpl in Hq. destruct p as [a|e|c' k]; [done.. |].
    destruct (decide (c' = c)) as [->|]; [| done].
    destruct cs as [|c' cs]; [done |]. destruct Hp as [<- Hp].
    specialize (Hp r). rewrite fmap_cons. simpl. apply prefix_cons.
    destruct (failure_of c r) as [x|].
    + rewrite Hp in Hq. destruct h; [apply prefix_nil | by destruct p].
    + by eapply IH.
Qed.

Lemma after_bind {A B} (p : prog A) (f : A → prog B) h q :
  after (p ≫= f) h = Some q →
  (∃ q', after p h = Some q') ∨
  (∃ h1 h2 a, h = h1 ++ h2 ∧ after p h1 = Some (Ret a) ∧
              after (f a) h2 = Some q).
Proof.
  revert p. induction h as [|[c r] h IH]; intros p Hq.
  - left. by exists p.
  - destruct p as [a|e|c' k].
    + right. by exists [], ((c, r) :: h), a.
    + done.
    + simpl in Hq |- *. destruct (decide (c' = c)) as [->|]; [| done].
      destruct (IH (k r) Hq) as [Hl | (h1 & h2 & a & -> & H1 & H2)].
      * by left.
      * right. exists ((c, r) :: h1), h2, a. simpl.
        by rewrite decide_True.
Qed.

Lemma after_log_info msg h q :
  after (log_info msg) h = Some q →
  h.*1 `prefix_of` [LogInfo msg] ∧ (∀ a, q = Ret a → h.*1 = [LogInfo msg]).
Proof.
  destruct h as [|[c r] h]; simpl.
  - intros [= <-]. split; [apply prefix_nil | done].
  - destruct (decide (LogInfo msg = c)) as [<-|]; [| done].
    destruct h as [|[c' r'] h]; [| done]. by intros _.
Qed.

Lemma after_uninstall_sge_worker self node h q :
  after (_uninstall_sge_worker self node) h = Some q →
  ∃ d, h.*1 `prefix_of` removal_script node d ∧
       (∀ a, q = Ret a → h.*1 = removal_script node d).
Proof.
  unfold _uninstall_sge_worker, removal_script.
  destruct h as [|[c1 r1] h]; simpl.
  { intros [= <-]. exists true. split; [apply prefix_nil | done]. }
  destruct (decide (_ = c1)) as [<-|]; [| done].
  destruct h as [|[c2 r2] h]; simpl.
  { intros [= <-]. exists true. split; [| done].
    by apply prefix_cons, prefix_nil. }
  destruct (decide (_ = c2)) as [<-|]; [| done].
  intros Hq. exists (bool_of r2). destruct (bool_of r2); simpl in Hq |- *.
  - destruct h as [|[c3 r3] h]; simpl in Hq |- *.
    { injection Hq as <-. split; [| done].
      do 2 apply prefix_cons. apply prefix_nil. }
    destruct (decide (_ = c3)) as [<-|]; [| done].
    by destruct h as [|[c4 r4] h].
  - destruct h as [|[c3 r3] h]; simpl in Hq |- *.
    { injection Hq as <-. split; [| done].
      do 2 apply prefix_cons. apply prefix_nil. }
    destruct (decide (_ = c3)) as [<-|]; [| done].
    by destruct h as [|[c4 r4] h].
Qed.

(** Whatever the answers, the calls of the node configurator begin its
    script. *)
Lemma after_configure_torque_node self master node h q :
  after (_configure_torque_node self master node) h = Some q →
  ∃ d, h.*1 `prefix_of` node_script master node d.
Proof.
  destruct (configure_torque_node_split self master node)
    as (rest & -> & Hrest).
  unfold node_script. intros Hq.
  apply after_bind in Hq as [(q' & Hq) | (h1 & h2 & a & -> & H1 & Hq)].
  { apply after_log_info in Hq as [Hpre _]. exists true.
    etrans; [exact Hpre |]. by apply prefix_cons, prefix_nil. }
  apply after_log_info in H1 as [_ H1]. specialize (H1 a eq_refl).
  rewrite fmap_app, H1.
  apply after_bind in Hq as [(q' & Hq) | (h3 & h4 & a' & -> & H3 & Hq)].
  { apply after_uninstall_sge_worker in Hq as (d & Hpre & _). exists d.
    apply (prefix_app [_]). etrans; [exact Hpre |]. by apply prefix_app_r. }
  apply after_uninstall_sge_worker in H3 as (d & _ & H3).
  specialize (H3 a' eq_refl). exists d.
  rewrite fmap_app, H3. apply (prefix_app [_]), prefix_app.
  by eapply after_follows.
Qed.

(** ** Jobs and the programs they were submitted with *)

Section Tracking.
Context (ex : Executor).

Lemma stepwise_tracks inits : stepwise ex (tracks inits).
Proof.
  intros i [tr js] [Hlen Hall]. unfold step_job. simpl in *.
  destruct (js !! i) as [[a|e|c k]|] eqn:Hi; simpl; try by split.
  split; [simpl; by rewrite length_insert |].
  intros j p0 Hj. destruct (Hall j p0 Hj) as (q & Hq & Haft). simpl in *.
  rewrite calls_of_app, calls_of_cons.
  destruct (decide (j = i)) as [->|Hne].
  - rewrite Hi in Hq. injection Hq as <-. eexists. split.
    + apply list_lookup_insert_eq. by eapply lookup_lt_Some.
    + rewrite decide_True by done. rewrite after_app, Haft. simpl.
      by rewrite decide_True.
  - exists q. split; [by rewrite list_lookup_insert_ne |].
    rewrite decide_False by congruence. by rewrite !app_nil_r.
Qed.

Lemma tracks_events inits tr js evs :
  (∀ i, calls_of (JobThread i) evs = []) →
  tracks inits (tr, js) → tracks inits (tr ++ evs, js).
Proof.
  intros Hevs [Hlen Hall]. split; [done |].
  intros i p0 Hi. destruct (Hall i p0 Hi) as (q & Hq & Haft).
  exists q. split; [done |]. simpl in *.
  by rewrite calls_of_app, Hevs, app_nil_r.
Qed.

Lemma tracks_enqueue inits tr js job :
  pool_inv (tr, js) → tracks inits (tr, js) →
  tracks (inits ++ [job]) (tr, js ++ [job]).
Proof.
  intros Hinv [Hlen Hall]. simpl in *. split.
  { simpl. rewrite !length_app. simpl. lia. }
  intros i p0 Hi. simpl.
  apply lookup_app_Some in Hi as [Hi | [Hge Hi]].
  - destruct (Hall i p0 Hi) as (q & Hq & Haft).
    exists q. split; [by apply lookup_app_l_Some | done].
  - destruct (i - length inits) as [|k] eqn:Hk; [| done].
    injection Hi as <-. assert (i = length js) as -> by lia.
    exists job. split.
    + rewrite lookup_app_r by lia. by rewrite Nat.sub_diag.
    + specialize (Hinv (length js)). simpl in Hinv.
      rewrite lookup_ge_None_2 in Hinv by lia. by rewrite Hinv.
Qed.

Lemma advance_tracks inits w :
  tracks inits (trace w, jobs w) →
  tracks inits (trace (advance ex w), jobs (advance ex w)).
Proof.
  intros Hw. unfold advance. simpl. rewrite <- surjective_pairing.
  by apply stepwise_burst; [apply stepwise_tracks |].
Qed.

Lemma for_in_tracks tr0 main method master workers :
  ∀ inits ops n count w,
  phase tr0 main ops n w → tracks inits (trace w, jobs w) →
  (∀ node, strict (method master node)) →
  tracks (inits ++ (method master <$> workers))
    (trace (for_in workers count (λ node wait_count,
              pool_simple_job ex method (master, node);;
              mret (wait_count + 1)) w).2,
     jobs (for_in workers count (λ node wait_count,
             pool_simple_job ex method (master, node);;
             mret (wait_count + 1)) w).2).
Proof.
  induction workers as [|node workers IH]; intros inits ops n count w Hp Ht Hm.
  - simpl. by rewrite app_nil_r.
  - set (w1 := advance ex (enqueue (method master node)
                             (record (SimpleJob master node) w))).
    assert (phase tr0 main (ops ++ [SimpleJob master node]) (S n) w1) as Hp1.
    { by apply phase_advance, phase_enqueue, phase_record. }
    assert (tracks (inits ++ [method master node]) (trace w1, jobs w1)) as Ht1.
    { apply advance_tracks. simpl.
      apply tracks_enqueue.
      - by destruct (phase_record tr0 main ops n (SimpleJob master node) w Hp).
      - by apply tracks_events. }
    specialize (IH _ _ _ (count + 1) w1 Hp1 Ht1 Hm).
    rewrite fmap_cons, cons_middle, app_assoc. exact IH.
Qed.

Lemma pool_wait_tracks inits n w :
  tracks inits (trace w, jobs w) →
  tracks inits (trace (pool_wait ex n w).2, jobs (pool_wait ex n w).2).
Proof.
  intros Ht. unfold pool_wait. simpl. rewrite <- surjective_pairing.
  apply stepwise_drain; [apply stepwise_tracks |].
  apply (advance_tracks inits (record (Wait n) w)). simpl.
  by apply tracks_events.
Qed.

(** The fan-out leaves every job as what is left of the node configurator
    of its worker after the calls of the job's thread. *)
Lemma fan_out_tracks self master workers tr0 w :
  phase tr0 [] [] 0 w → tracks [] (trace w, jobs w) →
  tracks (_configure_torque_node self master <$> workers)
    (trace ((wait_count ← for_in workers 0 (λ node wait_count,
               pool_simple_job ex (_configure_torque_node self) (master, node);;
               mret (wait_count + 1));
             pool_wait ex wait_count;;
             pool_shutdown ex;;
             call_here ex (log_info done_message)) w).2,
     jobs ((wait_count ← for_in workers 0 (λ node wait_count,
              pool_simple_job ex (_configure_torque_node self) (master, node);;
              mret (wait_count + 1));
            pool_wait ex wait_count;;
            pool_shutdown ex;;
            call_here ex (log_info done_message)) w).2).
Proof.
  intros Hw Ht.
  pose proof (for_in_tracks tr0 [] (_configure_torque_node self) master
                workers [] [] 0 0 w Hw Ht
                (strict_configure_torque_node self master)) as Ht1.
  destruct (for_in_phase ex tr0 [] (_configure_torque_node self) master
              workers [] 0 0 w) as (w1 & Hw1 & Hp1);
    [intros; apply strict_configure_torque_node | done |].
  rewrite Hw1 in Ht1. simpl in Hw1, Hp1, Ht1.
  pose proof (pool_wait_tracks _ (length workers) w1 Ht1) as Ht2.
  destruct (pool_wait_phase ex _ _ _ _ _ Hp1) as (w2 & Hw2 & _ & Hall).
  rewrite Hw2 in Ht2. simpl in Ht2.
  erewrite M_bind_returned by exact Hw1.
  erewrite M_bind_returned by exact Hw2.
  erewrite M_bind_returned by (by apply pool_shutdown_idle).
  rewrite call_here_log. simpl. rewrite <- app_assoc.
  by apply tracks_events.
Qed.

End Tracking.

Lemma tracks_nil tr : tracks [] (tr, []).
Proof. split; [done |]. by intros i p0 Hi. Qed.

(** At the end of a run every job is what is left of the node
    configurator of its worker. *)
Lemma run_tracks ex node_iter self nodes master user user_shell volumes
    sched :
  let w := (run ex node_iter self nodes master user user_shell volumes
              (fresh sched)).2 in
  ∃ workers,
    tracks (_configure_torque_node self master <$> workers)
      (trace w, jobs w) ∧
    (workers = [] ∨ worker_set node_iter self nodes master = Some workers).
Proof.
  intros w. subst w.
  assert (∀ i, calls_of (JobThread i)
            (exec ex MainThread
               (_configure_torque_master self master nodes) []).2 = [])
    as Hnojob.
  { intros i. rewrite exec_trace. by apply calls_of_called_ne. }
  destruct (run _ _ _ _ _ _ _ _ _) as [res w] eqn:Hrun.
  unfold run in Hrun. unfold mbind at 1, M_bind in Hrun.
  unfold call_here at 1 in Hrun. simpl trace in Hrun.
  destruct (exec ex MainThread _ []) as [[[]|x] trm].
  2: { exists []. injection Hrun as <- <-. split; [apply tracks_nil | by left]. }
  assert (phase trm [] [] 0 {| trace := trm; jobs := []; schedule := sched |})
    as Hph.
  { split; [| split; [done |]].
    - intros i. apply Hnojob.
    - exists []. by rewrite app_nil_r. }
  unfold worker_set.
  destruct (compute_on_master self);
    [unfold list_iadd in Hrun; destruct (node_iter master) as [items|] |].
  - exists (filter (λ n, alias n ≠ alias master) nodes ++ items).
    split; [| by right].
    pose proof (fan_out_tracks ex self master
                  (filter (λ n, alias n ≠ alias master) nodes ++ items)
                  trm _ Hph (tracks_nil trm)) as Ht.
    unfold done_message in Ht.
    assert (w = (res, w).2) as -> by done. rewrite <- Hrun. exact Ht.
  - exists []. injection Hrun as <- <-. split; [apply tracks_nil | by left].
  - exists (filter (λ n, alias n ≠ alias master) nodes).
    split; [| by right].
    pose proof (fan_out_tracks ex self master
                  (filter (λ n, alias n ≠ alias master) nodes)
                  trm _ Hph (tracks_nil trm)) as Ht.
    unfold done_message in Ht.
    assert (w = (res, w).2) as -> by done. rewrite <- Hrun. exact Ht.
Qed.

(** ** What the configurators do on every executor *)

Lemma Forall_prefix {X} (P : X → Prop) l1 l2 :
  l1 `prefix_of` l2 → Forall P l2 → Forall P l1.
Proof. intros [k ->] H. by apply Forall_app in H as [H _]. Qed.

Lemma exec_raised_iff {A} ex t (p : prog A) tr x :
  strict p →
  (exec ex t p tr).1 = Raised x ↔
  ∃ h' c r, history ex t p tr = h' ++ [(c, r)] ∧ Forall ok h' ∧
            failure_of c r = Some x.
Proof.
  intros Hp. pose proof (exec_sound ex t p tr Hp) as Hs. split.
  - intros Hr. rewrite Hr in Hs. by apply sound_raise in Hs.
  - intros (h' & c & r & Hh & _ & Hf).
    destruct (sound_final _ _ _ _ _ _ _ Hs Hh Hf) as [_ Hset].
    destruct (exec ex t p tr).1 as [a|x']; simpl in Hset; [done |].
    by injection Hset as ->.
Qed.

(** X1: [on_remove_node] returns exactly when the deregistration command
    exits with status 0 on the controller; any other status is raised to
    the caller as the failure of that command. *)
Theorem on_remove_node_outcome ex self node nodes master user user_shell
    volumes t tr :
  let cmd := "qmgr -c 'delete node " +:+ alias node +:+ "'" in
  let z := exit_status ex
             (tr ++ [Called t (LogInfo ("master: executing command: " +:+ cmd))
                       RNone])
             (alias master) cmd in
  (exec ex t (on_remove_node self node nodes master user user_shell volumes)
     tr).1
  = if decide (z = 0%Z) then Returned tt
    else Raised (RemoteCommandFailed (alias master) cmd z).
Proof.
  intros cmd z. unfold on_remove_node, _deconfigure_torque_node. simpl.
  fold cmd. fold z. destruct (decide (z = 0%Z)) as [Hz|Hz].
  - by rewrite bool_decide_false by (by intros ?).
  - by rewrite bool_decide_true.
Qed.

(** X2: [on_add_node] stops at the first call that fails: that call is
    the last one it makes, and its error is raised to the caller. *)
Theorem on_add_node_stops_at_failure ex self node nodes master user
    user_shell volumes t tr pre c r post x :
  history ex t (on_add_node self node nodes master user user_shell volumes) tr
    = pre ++ (c, r) :: post →
  failure_of c r = Some x →
  post = [] ∧
  (exec ex t (on_add_node self node nodes master user user_shell volumes)
     tr).1 = Raised x.
Proof.
  destruct (on_add_node_exec ex t self node nodes master user user_shell
              volumes tr) as [-> ->].
  intros Hh Hf.
  pose proof (exec_sound ex t _ tr
                (strict_configure_torque_node self master node)) as Hs.
  destruct (sound_final _ _ _ _ _ _ _ Hs Hh Hf) as [-> Hset].
  split; [done |].
  destruct (exec ex t _ tr).1 as [a|x']; simpl in Hset; [done |].
  by injection Hset as ->.
Qed.

Lemma on_add_node_stops_at_failure_witness :
  (exec (failing_on "service torque-mom stop") MainThread
     (on_add_node workers_only_plugin node002 [master0; node001] master0
        PyNone PyNone PyNone) []).1
  = Raised (RemoteCommandFailed "node002" "service torque-mom stop" 1).
Proof.
  assert (history (failing_on "service torque-mom stop") MainThread
            (on_add_node workers_only_plugin node002 [master0; node001]
               master0 PyNone PyNone PyNone) []
          = take 10 (history (failing_on "service torque-mom stop") MainThread
                       (on_add_node workers_only_plugin node002
                          [master0; node001] master0 PyNone PyNone PyNone) [])
            ++ (SshExecute "node002" "service torque-mom stop" true false,
                RStatus 1) :: []) as Hh by (vm_compute; reflexivity).
  assert (failure_of (SshExecute "node002" "service torque-mom stop" true false)
            (RStatus 1)
          = Some (RemoteCommandFailed "node002" "service torque-mom stop" 1))
    as Hf by reflexivity.
  exact (proj2 (on_add_node_stops_at_failure _ _ _ _ _ _ _ _ _ _ _ _ _ _ _
                  Hh Hf)).
Defined.

(** X3: on every executor the controller configurator makes the calls of
    its script in order and nothing else, so it only ever touches the
    controller; it returns exactly when none of its calls fails, and
    raises exactly the error of its last call when that one fails. *)
Theorem controller_calls_in_order ex self master nodes t tr :
  let h := history ex t (_configure_torque_master self master nodes) tr in
  let res := (exec ex t (_configure_torque_master self master nodes) tr).1 in
  h.*1 `prefix_of` controller_script self master ∧
  Forall (λ c, host_of c = None ∨ host_of c = Some (alias master)) h.*1 ∧
  (res = Returned tt ↔ Forall ok h) ∧
  (∀ x, res = Raised x ↔
        ∃ h' c r, h = h' ++ [(c, r)] ∧ Forall ok h' ∧ failure_of c r = Some x).
Proof.
  intros h res.
  destruct (history_follows ex t _ _ tr
              (configure_torque_master_follows self master nodes))
    as [Hpre _].
  split; [exact Hpre |]. split; [| split].
  - eapply Forall_prefix; [exact Hpre |].
    unfold controller_script. simpl.
    repeat first
      [ solve [constructor]
      | apply Forall_cons; split; [first [by left | by right] |] ].
  - subst res h. rewrite <- exec_returned_iff
      by apply strict_configure_torque_master.
    split; [by exists tt | by intros [[] ->]].
  - intros x. apply exec_raised_iff, strict_configure_torque_master.
Qed.

(** X4: on every executor the node configurator makes the calls of its
    script in order and nothing else, the script being the one for the
    answer of the directory test on [/opt/sge6], which is always its third
    call; the only call it makes on another machine than its node is the
    registration on the controller; it returns exactly when none of its
    calls fails, and raises exactly the error of its last call when that
    one fails. *)
Theorem node_calls_in_order ex self master node t tr :
  let h := history ex t (_configure_torque_node self master node) tr in
  let res := (exec ex t (_configure_torque_node self master node) tr).1 in
  (∃ d, h !! 2 = Some (SshIsdir (alias node) "/opt/sge6", RBool d) ∧
        h.*1 `prefix_of` node_script master node d) ∧
  Forall (λ c, host_of c = None ∨ host_of c = Some (alias node) ∨
               c = registration master node) h.*1 ∧
  (res = Returned tt ↔ Forall ok h) ∧
  (∀ x, res = Raised x ↔
        ∃ h' c r, h = h' ++ [(c, r)] ∧ Forall ok h' ∧ failure_of c r = Some x).
Proof.
  intros h res.
  assert (∃ d, h !! 2 = Some (SshIsdir (alias node) "/opt/sge6", RBool d) ∧
               h.*1 `prefix_of` node_script master node d) as (d & Hd & Hpre).
  { destruct (configure_torque_node_history ex t self master node tr)
      as (d & h' & Hh & Hd & Hrem & Hp & _).
    exists d. subst h. rewrite Hh. split.
    - rewrite lookup_cons. rewrite lookup_app_l; [done |].
      by eapply lookup_lt_Some.
    - rewrite fmap_cons, fmap_app, Hrem.
      by apply prefix_cons, prefix_app. }
  split; [by exists d |]. split; [| split].
  - eapply Forall_prefix; [exact Hpre |].
    unfold node_script, removal_script, worker_script, registration.
    destruct d; simpl;
      repeat first
        [ solve [constructor]
        | apply Forall_cons; split;
            [first [by left | by right; left | by right; right] |] ].
  - subst res h. rewrite <- exec_returned_iff
      by apply strict_configure_torque_node.
    split; [by exists tt | by intros [[] ->]].
  - intros x. apply exec_raised_iff, strict_configure_torque_node.
Qed.

(** ** What [run] does with the pool *)

Lemma filter_others_nil (nodes : list Node) master :
  Forall (λ n, alias n = alias master) nodes →
  filter (λ n, alias n ≠ alias master) nodes = [].
Proof.
  induction 1 as [|n nodes Hn _ IH]; [done |].
  by rewrite filter_cons_False by (by intros ?).
Qed.

Lemma node_script_hosts master node d :
  Forall (λ c, host_of c = None ∨ host_of c = Some (alias node) ∨
               c = registration master node) (node_script master node d).
Proof.
  unfold node_script, removal_script, worker_script, registration.
  destruct d; simpl;
    repeat first
      [ solve [constructor]
      | apply Forall_cons; split;
          [first [by left | by right; left | by right; right] |] ].
Qed.

(** X5: without the controller as a worker, and once the controller stage
    has returned, [run] submits one job per machine of the list whose
    alias differs from the controller's, in list order and never for the
    controller, waits for exactly that many jobs, shuts the pool down
    once after all of them have finished, and returns, whatever happens
    in the jobs. *)
Theorem run_workers_only_protocol ex node_iter self nodes master user
    user_shell volumes sched :
  let rw := run ex node_iter self nodes master user user_shell volumes
              (fresh sched) in
  let workers := filter (λ n, alias n ≠ alias master) nodes in
  compute_on_master self = false →
  (exec ex MainThread (_configure_torque_master self master nodes) []).1
    = Returned tt →
  rw.1 = Some (Returned tt) ∧
  pool_calls (trace rw.2)
    = (SimpleJob master <$> workers) ++ [Wait (length workers); Shutdown] ∧
  length (jobs rw.2) = length workers ∧
  all_finished (jobs rw.2).
Proof.
  intros rw workers Hflag Hm.
  apply (run_pool_protocol ex node_iter self nodes master user user_shell
           volumes sched workers Hm).
  by apply worker_set_workers_only.
Qed.

Lemma run_workers_only_protocol_witness :
  let rw := run quiet plain_object workers_only_plugin
              [master0; node001; master0; node002] master0
              PyNone PyNone PyNone (fresh [[0]; [1; 0; 1]]) in
  rw.1 = Some (Returned tt) ∧
  pool_calls (trace rw.2)
    = [SimpleJob master0 node001; SimpleJob master0 node002; Wait 2;
       Shutdown].
Proof.
  intros rw.
  assert (compute_on_master workers_only_plugin = false) as Hflag
    by reflexivity.
  assert ((exec quiet MainThread
             (_configure_torque_master workers_only_plugin master0
                [master0; node001; master0; node002]) []).1 = Returned tt)
    as Hm by (vm_compute; reflexivity).
  destruct (run_workers_only_protocol quiet plain_object workers_only_plugin
              [master0; node001; master0; node002] master0
              PyNone PyNone PyNone [[0]; [1; 0; 1]] Hflag Hm)
    as (Hres & Hpool & _).
  exact (conj Hres Hpool).
Defined.

(** X6: on a cluster with no machine but the controller (an empty list,
    or a list of the controller alone) and without the controller as a
    worker, [run] configures the controller, waits for zero jobs, shuts
    the pool down and returns, with no job submitted. *)
Theorem run_without_workers ex node_iter self nodes master user user_shell
    volumes sched :
  let rw := run ex node_iter self nodes master user user_shell volumes
              (fresh sched) in
  compute_on_master self = false →
  Forall (λ n, alias n = alias master) nodes →
  (exec ex MainThread (_configure_torque_master self master nodes) []).1
    = Returned tt →
  rw.1 = Some (Returned tt) ∧
  pool_calls (trace rw.2) = [Wait 0; Shutdown] ∧
  jobs rw.2 = [].
Proof.
  intros rw Hflag Hnodes Hm.
  destruct (run_pool_protocol ex node_iter self nodes master user user_shell
              volumes sched [] Hm) as (Hres & Hpool & Hlen & _).
  { rewrite worker_set_workers_only by done.
    by rewrite filter_others_nil. }
  split; [done |]. split; [done |]. by apply nil_length_inv.
Qed.

Lemma run_without_workers_witness :
  let rw := run quiet plain_object workers_only_plugin [master0] master0
              PyNone PyNone PyNone (fresh []) in
  rw.1 = Some (Returned tt) ∧
  pool_calls (trace rw.2) = [Wait 0; Shutdown] ∧
  jobs rw.2 = [].
Proof.
  intros rw.
  assert (compute_on_master workers_only_plugin = false) as Hflag
    by reflexivity.
  assert (Forall (λ n, alias n = alias master0) [master0]) as Hnodes
    by (repeat constructor).
  assert ((exec quiet MainThread
             (_configure_torque_master workers_only_plugin master0 [master0])
             []).1 = Returned tt)
    as Hm by (vm_compute; reflexivity).
  exact (run_without_workers quiet plain_object workers_only_plugin [master0]
           master0 PyNone PyNone PyNone [] Hflag Hnodes Hm).
Defined.

(** X7: whatever the executor answers and however the jobs are
    scheduled, a run goes one of three ways.  Either the controller stage
    raises, and [run] raises that error without calling the pool; or the
    controller stage returns and [compute_nodes += master] raises
    [TypeError], again without calling the pool; or [run] submits one job
    per worker, waits for exactly as many jobs as it submitted, shuts the
    pool down once, and returns.  An error of a worker job is never what
    [run] raises.  (Every call of the executor answers here: a remote
    command that never answers is not part of this statement.) *)
Theorem run_waits_for_what_it_submitted ex node_iter self nodes master user
    user_shell volumes sched :
  let m := exec ex MainThread (_configure_torque_master self master nodes) [] in
  let rw := run ex node_iter self nodes master user user_shell volumes
              (fresh sched) in
  (∃ x, m.1 = Raised x ∧ rw.1 = Some (Raised x) ∧
        pool_calls (trace rw.2) = []) ∨
  (m.1 = Returned tt ∧ compute_on_master self = true ∧
   node_iter master = None ∧
   rw.1 = Some (Raised (TypeError "'Node' object is not iterable")) ∧
   pool_calls (trace rw.2) = []) ∨
  (m.1 = Returned tt ∧
   (compute_on_master self = false ∨ is_Some (node_iter master)) ∧
   rw.1 = Some (Returned tt) ∧
   ∃ workers,
     worker_set node_iter self nodes master = Some workers ∧
     pool_calls (trace rw.2)
       = (SimpleJob master <$> workers) ++ [Wait (length workers); Shutdown] ∧
     length (jobs rw.2) = length workers).
Proof.
  intros m rw.
  pose proof (exec_trace ex MainThread
                (_configure_torque_master self master nodes) []) as Htr.
  destruct (run_cases ex node_iter self nodes master user user_shell volumes
              sched)
    as [(x & Hm & Hres & Ht & _) | [(Hm & Hws & Hres & Ht & _) |
        (Hm & workers & evs & Hws & Hres & Ht & _ & Hops & _ & _ & Hlen)]].
  - left. exists x. split; [done |]. split; [done |].
    subst rw. rewrite Ht, Htr. apply pool_calls_called.
  - right. left. unfold worker_set in Hws.
    assert (pool_calls (trace rw.2) = []) as Hpool.
    { subst rw. rewrite Ht, Htr. apply pool_calls_called. }
    destruct (compute_on_master self); [| done].
    by destruct (node_iter master).
  - right. right. split; [done |]. split; [| split; [done |]].
    + unfold worker_set in Hws.
      destruct (compute_on_master self); [| by left].
      right. by destruct (node_iter master).
    + exists workers. split; [done |]. split; [| done].
      subst rw. rewrite Ht, Htr, !pool_calls_app, pool_calls_called, Hops.
      simpl. by rewrite <- app_assoc.
Qed.

(** X8: in every run, under every schedule and on every executor, the
    thread of the [i]-th submitted job makes the calls of the node
    configurator's script for the [i]-th worker, in order, as far as it
    gets, and nothing else: it touches no machine but its own worker,
    except for registering that worker on the controller.  A thread for
    which no job was submitted makes no call. *)
Theorem job_calls_follow_node_script ex node_iter self nodes master user
    user_shell volumes sched i :
  let w := (run ex node_iter self nodes master user user_shell volumes
              (fresh sched)).2 in
  match pool_calls (trace w) !! i with
  | Some (SimpleJob m node) =>
      m = master ∧
      (∃ d, (calls_of (JobThread i) (trace w)).*1
              `prefix_of` node_script master node d) ∧
      Forall (λ c, host_of c = None ∨ host_of c = Some (alias node) ∨
                   c = registration master node)
        (calls_of (JobThread i) (trace w)).*1
  | _ => calls_of (JobThread i) (trace w) = []
  end.
Proof.
  intros w. subst w.
  pose proof (exec_trace ex MainThread
                (_configure_torque_master self master nodes) []) as Htr.
  rewrite app_nil_l in Htr.
  destruct (run_tracks ex node_iter self nodes master user user_shell volumes
              sched) as (workers' & Htrk & Hw').
  destruct (run_cases ex node_iter self nodes master user user_shell volumes
              sched)
    as [(x & _ & _ & Ht & _) | [(_ & _ & _ & Ht & _) |
        (_ & workers & evs & Hws & _ & Ht & _ & Hops & Hinv & _ & Hlen)]].
  - rewrite Ht, Htr, pool_calls_called. simpl.
    by apply calls_of_called_ne.
  - rewrite Ht, Htr, pool_calls_called. simpl.
    by apply calls_of_called_ne.
  - assert (workers' = workers) as ->.
    { destruct Hw' as [->|Hw']; [| congruence].
      destruct Htrk as [Hl _]. simpl in Hl. rewrite Hlen in Hl.
      symmetry. by apply nil_length_inv. }
    assert (pool_calls
              (trace (run ex node_iter self nodes master user user_shell
                        volumes (fresh sched)).2)
            = (SimpleJob master <$> workers) ++
              [Wait (length workers); Shutdown]) as ->.
    { rewrite Ht, Htr, !pool_calls_app, pool_calls_called, Hops.
      simpl. by rewrite <- app_assoc. }
    destruct (workers !! i) as [node|] eqn:Hi.
    + rewrite lookup_app_l
        by (rewrite length_fmap; by eapply lookup_lt_Some).
      rewrite list_lookup_fmap, Hi. simpl.
      destruct Htrk as [_ Htrk].
      destruct (Htrk i (_configure_torque_node self master node))
        as (q & _ & Haft).
      { by rewrite list_lookup_fmap, Hi. }
      simpl in Haft.
      destruct (after_configure_torque_node _ _ _ _ _ Haft) as [d Hpre].
      split; [done |]. split; [by exists d |].
      eapply Forall_prefix; [exact Hpre | apply node_script_hosts].
    + apply lookup_ge_None_1 in Hi.
      assert (calls_of (JobThread i)
                (trace (run ex node_iter self nodes master user user_shell
                          volumes (fresh sched)).2) = []) as Hnone.
      { specialize (Hinv i). simpl in Hinv.
        by rewrite lookup_ge_None_2 in Hinv by lia. }
      rewrite lookup_app_r by (rewrite length_fmap; lia).
      rewrite length_fmap.
      by destruct (i - length workers) as [|[|k]].
Qed.

(** ** The flag, again *)

Lemma ascii_lower_idemp c : ascii_lower (ascii_lower c) = ascii_lower c.
Proof. by destruct c as [[] [] [] [] [] [] [] []]. Qed.

Lemma str_lower_idemp s : str_lower (str_lower s) = str_lower s.
Proof.
  induction s as [|c s IH]; [done |].
  simpl. by rewrite ascii_lower_idemp, IH.
Qed.

(** X9: the flag of the constructor does not depend on the case of a
    string argument, and it is a fixed point: building a plugin from the
    flag of another one gives the same flag. *)
Theorem compute_on_master_case_insensitive s v admin admin' :
  compute_on_master (__init__ (PyStr (str_lower s)) admin)
    = compute_on_master (__init__ (PyStr s) admin) ∧
  compute_on_master
    (__init__ (PyBool (compute_on_master (__init__ v admin))) admin')
    = compute_on_master (__init__ v admin).
Proof.
  split.
  - simpl. by rewrite str_lower_idemp.
  - by destruct (compute_on_master (__init__ v admin)).
Qed.

(** ** The commands of the registry *)



(** ** The controller sequence within a run *)









(** On a cluster of a controller and two workers, under an interleaving
    schedule, [qterm] is executed once and the pool is reached. *)
Example run_issues_qterm_once :
  let w := (run quiet plain_object workers_only_plugin
              [master0; node001; node002] master0 PyNone PyNone PyNone
              (fresh [[0; 1]; [1; 0; 0]; [1; 0]])).2 in
  issued "qterm" (trace w) = 1 ∧
  pool_calls (trace w)
    = [SimpleJob master0 node001; SimpleJob master0 node002; Wait 2;
       Shutdown].
Proof. vm_compute. done. Qed.
